(** * moments.LD.Numerics: the time integrator and the equilibrium solvers

    A shallow embedding of [src/moments/LD/Numerics.py] ([integrate],
    [steady_state], [equilibrium_ld], [steady_state_two_pop]) and the
    properties of its control flow.

    Modelling conventions.
    - Scalars (times, step sizes, rates, sizes) are exact rationals [Qc];
      Python's [==], [<], [<=] on them are Leibniz equality and the order of
      [Qc].  Rounding of binary floating point is not part of the model.
    - numpy/scipy (dense and sparse matrices, [dot], [inv], [factorized]) is
      an interface, class [LinAlg]; its operations are total, so a singular
      matrix or a shape mismatch is outside the model.
    - The operator builders of module [Matrices] are an interface as well,
      class [MatricesMod], with the signatures the calls in Numerics.py show.
    - Python exceptions, and the order in which builders and solvers are
      invoked, are kept: a computation is a function from the log of external
      calls made so far to a result and the extended log.
    - [integrate] updates the list [Y] in place and returns it; the model
      returns the updated list. *)

From Stdlib Require Import QArith Qcanon Qround Lia Lqa.
From stdpp Require Import base option list numbers strings.

Local Open Scope Qc_scope.

(** * The model *)

(** ** Python values and exceptions *)

Inductive exn :=
| ValueError (msg : string)
| IndexError
| TypeError
| UnboundLocalError (var : string).

Inductive res (A : Type) :=
| Ok (a : A)
| Raise (e : exn)
| OutOfFuel.

Arguments Ok {A} a.

Arguments Raise {A} e.

Arguments OutOfFuel {A}.

(** External calls, in the order they are made. *)
Inductive call :=
| Call_drift_h (num_pops : nat) (nus : list Qc)
| Call_drift_ld (num_pops : nat) (nus : list Qc)
| Call_mutation_h (num_pops : nat) (theta : Qc)
| Call_mutation_ld (num_pops : nat) (theta : Qc)
| Call_recombination (num_pops : nat) (r : Qc)
| Call_migration_h (num_pops : nat)
| Call_migration_ld (num_pops : nat)
| Call_inv
| Call_factorized.

Global Instance call_eq_dec : EqDecision call.
Proof. solve_decision. Defined.

Definition log := list call.

Definition M (A : Type) : Type := log → res A * log.

Global Instance M_ret : MRet M := λ A a tr, (Ok a, tr).

Global Instance M_bind : MBind M := λ A B f c tr,
  match c tr with
  | (Ok a, tr') => f a tr'
  | (Raise e, tr') => (Raise e, tr')
  | (OutOfFuel, tr') => (OutOfFuel, tr')
  end.

Definition raise {A} (e : exn) : M A := λ tr, (Raise e, tr).

Definition out_of_fuel {A} : M A := λ tr, (OutOfFuel, tr).

Definition tell (c : call) : M unit := λ tr, (Ok tt, tr ++ [c]).

(** Reading a local variable that may not have been assigned yet. *)
Definition read_local {A} (var : string) (v : option A) : M A :=
  match v with
  | Some a => mret a
  | None => raise (UnboundLocalError var)
  end.

(** [l[i]] on a Python list. *)
Definition index {A} (l : list A) (i : nat) : M A :=
  match l !! i with
  | Some a => mret a
  | None => raise IndexError
  end.

(** [[f(i, l[i]) for i in range(len(l))]], left to right. *)
Fixpoint for_range {A B} (f : nat → A → M B) (i : nat) (l : list A) : M (list B) :=
  match l with
  | [] => mret []
  | a :: l' => b ← f i a; bs ← for_range f (S i) l'; mret (b :: bs)
  end.

(** The argument [rho]: absent, a scalar, or a list. *)
Inductive rho_arg :=
| RhoNone
| RhoScalar (r : Qc)
| RhoList (rs : list Qc).

(** [np.isscalar(rho)] *)
Definition isscalar (rho : rho_arg) : bool :=
  match rho with RhoScalar _ => true | _ => false end.

(** [rho is not None] *)
Definition is_not_None (rho : rho_arg) : bool :=
  match rho with RhoNone => false | _ => true end.

(** A value that is a single object for scalar [rho] and a list of them for
    a list of rates ([R], [Ab_ld], [Ab1_ld], [Ab2_ld]). *)
Inductive ld (A : Type) :=
| One (a : A)
| Many (l : list A).

Arguments One {A} a.

Arguments Many {A} l.

(** ** The numpy/scipy interface *)

Class LinAlg := {
  vec : Type;
  mat : Type;
  array1 : Qc → vec;                 (* np.array([x]) *)
  vadd : vec → vec → vec;
  vscale : Qc → vec → vec;
  vneg : vec → vec;
  shape0 : mat → nat;                (* A.shape[0] *)
  eye : nat → mat;                   (* np.eye(n), identity(n, format="csc") *)
  madd : mat → mat → mat;
  msub : mat → mat → mat;
  mscale : Qc → mat → mat;
  dot : mat → vec → vec;
  inv : mat → mat;                   (* np.linalg.inv *)
  factorized : mat → vec → vec;      (* scipy.sparse.linalg.factorized *)
}.

(** ** The operator builders of module Matrices *)

Definition selfing_t := option (list (option Qc)).

Definition frozen_t := option (list bool).

Definition mig_t := list (list Qc).

Class MatricesMod `{LinAlg} := {
  drift_h : nat → list Qc → frozen_t → mat;
  drift_ld : nat → list Qc → frozen_t → mat;
  mutation_h : nat → Qc → frozen_t → selfing_t → vec;
  mutation_ld : nat → Qc → frozen_t → selfing_t → mat;
  recombination_ld : nat → Qc → frozen_t → selfing_t → mat;
  migration_h : nat → mig_t → frozen_t → mat;
  migration_ld : nat → mig_t → frozen_t → mat;
}.

Section Numerics.
Context {LA : LinAlg} {MM : MatricesMod}.

(** ** Transition matrices (Numerics.py, lines 92-128) *)

Definition drift (num_pops : nat) (nus : list Qc) (frozen : frozen_t) (rho : rho_arg)
  : M (mat * option mat) :=
  tell (Call_drift_h num_pops nus);;
  let Dh := drift_h num_pops nus frozen in
  if is_not_None rho then
    tell (Call_drift_ld num_pops nus);;
    mret (Dh, Some (drift_ld num_pops nus frozen))
  else mret (Dh, None).

Definition mutation (num_pops : nat) (theta : Qc) (frozen : frozen_t)
    (selfing : selfing_t) (rho : rho_arg) : M (vec * option mat) :=
  tell (Call_mutation_h num_pops theta);;
  let Uh := mutation_h num_pops theta frozen selfing in
  if is_not_None rho then
    tell (Call_mutation_ld num_pops theta);;
    mret (Uh, Some (mutation_ld num_pops theta frozen selfing))
  else mret (Uh, None).

Fixpoint recombination_list (num_pops : nat) (rs : list Qc) (frozen : frozen_t)
    (selfing : selfing_t) : M (list mat) :=
  match rs with
  | [] => mret []
  | r :: rs' =>
      tell (Call_recombination num_pops r);;
      Rs ← recombination_list num_pops rs' frozen selfing;
      mret (recombination_ld num_pops r frozen selfing :: Rs)
  end.

Definition recombination (num_pops : nat) (rho : rho_arg) (frozen : frozen_t)
    (selfing : selfing_t) : M (ld mat) :=
  match rho with
  | RhoScalar r =>
      tell (Call_recombination num_pops r);;
      mret (One (recombination_ld num_pops r frozen selfing))
  | RhoList rs => Rs ← recombination_list num_pops rs frozen selfing; mret (Many Rs)
  | RhoNone => raise TypeError      (* iterating over None *)
  end.

Definition migration (num_pops : nat) (m : mig_t) (frozen : frozen_t) (rho : rho_arg)
  : M (mat * option mat) :=
  tell (Call_migration_h num_pops);;
  let Mh := migration_h num_pops m frozen in
  if is_not_None rho then
    tell (Call_migration_ld num_pops);;
    mret (Mh, Some (migration_ld num_pops m frozen))
  else mret (Mh, None).

(** ** integrate (Numerics.py, lines 134-254) *)

(** The argument [nu]: a fixed vector of sizes or a function of time. *)
Inductive nu_arg :=
| NuFixed (sizes : list Qc)
| NuCallable (f : Qc → list Qc).

Definition callable (nu : nu_arg) : bool :=
  match nu with NuCallable _ => true | NuFixed _ => false end.

Record params := {
  p_nu : nu_arg;
  p_T : Qc;
  p_dt : Qc;
  p_theta : Qc;
  p_rho : rho_arg;
  p_m : option mig_t;
  p_num_pops : option nat;
  p_selfing : selfing_t;
  p_frozen : frozen_t;
}.

(** [np.any(np.array(m) != 0)] *)
Definition any_nonzero (m : mig_t) : bool :=
  existsb (existsb (λ x, negb (bool_decide (x = 0)))) m.

(** [num_pops > 1 and m is not None and np.any(np.array(m) != 0)] *)
Definition has_migration (num_pops : nat) (m : option mig_t) : bool :=
  match m with
  | Some m => bool_decide (1 < num_pops)%nat && any_nonzero m
  | None => false
  end.

(** Locals bound once, before the loop.  [Uld] is the value None when [rho]
    is None; [R], [Mh], [Mld] are not assigned at all on some paths. *)
Record env := {
  num_pops : nat;
  Uh : vec;
  Uld : option mat;
  R : option (ld mat);
  Mh : option mat;
  Mld : option (option mat);
}.

(** Locals the loop reads and assigns.  [None] is "not assigned yet". *)
Record locals := {
  h : vec;
  y : option vec;
  ys : option (list vec);
  nus : list Qc;
  dt : Qc;
  dt_last : Qc;
  nus_last : list Qc;
  elapsed_t : Qc;
  Ab1_h : option mat;
  Ab2_h : option mat;
  Ab1_ld : option (ld mat);
  Ab2_ld : option (ld (vec → vec));
}.

(** Using the value None where a matrix is expected. *)
Definition not_None {A} (v : option A) : M A :=
  match v with
  | Some a => mret a
  | None => raise TypeError
  end.

(** [I + dt/2 * A] and [I - dt/2 * A], with [I] of the size of [A]. *)
Definition half_fwd (dt : Qc) (A : mat) : mat :=
  madd (eye (shape0 A)) (mscale (dt / 2) A).

Definition half_bwd (dt : Qc) (A : mat) : mat :=
  msub (eye (shape0 A)) (mscale (dt / 2) A).

(** Lines 185-199: the combined operators [Ab_h], [Ab_ld]. *)
Definition combine (p : params) (e : env) (nus : list Qc)
  : M (mat * option (ld mat)) :=
  '(Dh, Dld) ← drift (num_pops e) nus (p_frozen p) (p_rho p);
  if has_migration (num_pops e) (p_m p) then
    Mh ← read_local "Mh" (Mh e);
    let Ab_h := madd Dh Mh in
    match p_rho p with
    | RhoNone => mret (Ab_h, None)
    | RhoScalar _ =>
        Dld ← not_None Dld;
        Mld ← read_local "Mld" (Mld e) ≫= not_None;
        R ← read_local "R" (R e);
        match R with
        | One R => mret (Ab_h, Some (One (madd (madd Dld Mld) R)))
        | Many _ => raise TypeError
        end
    | RhoList rs =>
        Ab_ld ← for_range (λ i _,
            Dld ← not_None Dld;
            Mld ← read_local "Mld" (Mld e) ≫= not_None;
            R ← read_local "R" (R e);
            match R with
            | Many Rs => Ri ← index Rs i; mret (madd (madd Dld Mld) Ri)
            | One _ => raise TypeError
            end) 0 rs;
        mret (Ab_h, Some (Many Ab_ld))
    end
  else
    let Ab_h := Dh in
    match p_rho p with
    | RhoNone => mret (Ab_h, None)
    | RhoScalar _ =>
        Dld ← not_None Dld;
        R ← read_local "R" (R e);
        match R with
        | One R => mret (Ab_h, Some (One (madd Dld R)))
        | Many _ => raise TypeError
        end
    | RhoList rs =>
        Ab_ld ← for_range (λ i _,
            Dld ← not_None Dld;
            R ← read_local "R" (R e);
            match R with
            | Many Rs => Ri ← index Rs i; mret (madd Dld Ri)
            | One _ => raise TypeError
            end) 0 rs;
        mret (Ab_h, Some (Many Ab_ld))
    end.

Definition set_step (s : locals) (dt' : Qc) (nus' : list Qc) : locals :=
  {| h := h s; y := y s; ys := ys s; nus := nus'; dt := dt';
     dt_last := dt_last s; nus_last := nus_last s; elapsed_t := elapsed_t s;
     Ab1_h := Ab1_h s; Ab2_h := Ab2_h s; Ab1_ld := Ab1_ld s; Ab2_ld := Ab2_ld s |}.

Definition set_h_solvers (s : locals) (A1 A2 : mat) : locals :=
  {| h := h s; y := y s; ys := ys s; nus := nus s; dt := dt s;
     dt_last := dt_last s; nus_last := nus_last s; elapsed_t := elapsed_t s;
     Ab1_h := Some A1; Ab2_h := Some A2; Ab1_ld := Ab1_ld s; Ab2_ld := Ab2_ld s |}.

Definition set_ld_solvers (s : locals) (A1 : ld mat) (A2 : ld (vec → vec)) : locals :=
  {| h := h s; y := y s; ys := ys s; nus := nus s; dt := dt s;
     dt_last := dt_last s; nus_last := nus_last s; elapsed_t := elapsed_t s;
     Ab1_h := Ab1_h s; Ab2_h := Ab2_h s; Ab1_ld := Some A1; Ab2_ld := Some A2 |}.

Definition set_h (s : locals) (h' : vec) : locals :=
  {| h := h'; y := y s; ys := ys s; nus := nus s; dt := dt s;
     dt_last := dt_last s; nus_last := nus_last s; elapsed_t := elapsed_t s;
     Ab1_h := Ab1_h s; Ab2_h := Ab2_h s; Ab1_ld := Ab1_ld s; Ab2_ld := Ab2_ld s |}.

Definition set_y (s : locals) (y' : vec) : locals :=
  {| h := h s; y := Some y'; ys := ys s; nus := nus s; dt := dt s;
     dt_last := dt_last s; nus_last := nus_last s; elapsed_t := elapsed_t s;
     Ab1_h := Ab1_h s; Ab2_h := Ab2_h s; Ab1_ld := Ab1_ld s; Ab2_ld := Ab2_ld s |}.

Definition set_ys (s : locals) (ys' : list vec) : locals :=
  {| h := h s; y := y s; ys := Some ys'; nus := nus s; dt := dt s;
     dt_last := dt_last s; nus_last := nus_last s; elapsed_t := elapsed_t s;
     Ab1_h := Ab1_h s; Ab2_h := Ab2_h s; Ab1_ld := Ab1_ld s; Ab2_ld := Ab2_ld s |}.

(** Lines 244-246. *)
Definition advance (s : locals) : locals :=
  {| h := h s; y := y s; ys := ys s; nus := nus s; dt := dt s;
     dt_last := dt s; nus_last := nus s; elapsed_t := elapsed_t s + dt s;
     Ab1_h := Ab1_h s; Ab2_h := Ab2_h s; Ab1_ld := Ab1_ld s; Ab2_ld := Ab2_ld s |}.

(** Lines 201-222: the half-step matrices, the inverse, the factorizations. *)
Definition solvers (p : params) (Ab_h : mat) (Ab_ld : option (ld mat))
    (s : locals) : M locals :=
  let Ab1_h' := half_fwd (dt s) Ab_h in
  tell Call_inv;;
  let Ab2_h' := inv (half_bwd (dt s) Ab_h) in
  let s := set_h_solvers s Ab1_h' Ab2_h' in
  match p_rho p with
  | RhoNone => mret s
  | RhoScalar _ =>
      Ab_ld ← read_local "Ab_ld" Ab_ld;
      match Ab_ld with
      | One Ab_ld =>
          let Ab1_ld' := half_fwd (dt s) Ab_ld in
          tell Call_factorized;;
          let Ab2_ld' := factorized (half_bwd (dt s) Ab_ld) in
          mret (set_ld_solvers s (One Ab1_ld') (One Ab2_ld'))
      | Many _ => raise TypeError
      end
  | RhoList rs =>
      Ab_ld ← read_local "Ab_ld" Ab_ld;
      match Ab_ld with
      | Many Ab_ld =>
          Ab1_ld' ← for_range (λ i _,
              A ← index Ab_ld i; mret (half_fwd (dt s) A)) 0 rs;
          Ab2_ld' ← for_range (λ i _,
              A ← index Ab_ld i;
              tell Call_factorized;;
              mret (factorized (half_bwd (dt s) A))) 0 rs;
          mret (set_ld_solvers s (Many Ab1_ld') (Many Ab2_ld'))
      | One _ => raise TypeError
      end
  end.

(** Line 184: [dt != dt_last or nus != nus_last or elapsed_t == 0]. *)
Definition recompute (s : locals) : bool :=
  negb (bool_decide (dt s = dt_last s))
  || negb (bool_decide (nus s = nus_last s))
  || bool_decide (elapsed_t s = 0).

(** Lines 183-222. *)
Definition rebuild (p : params) (e : env) (s : locals) : M locals :=
  if recompute s then
    '(Ab_h, Ab_ld) ← combine p e (nus s);
    solvers p Ab_h Ab_ld s
  else mret s.

(** Lines 224-232: the forward sub-step. *)
Definition forward (p : params) (e : env) (s : locals) : M locals :=
  s ← match p_rho p with
      | RhoNone => mret s
      | RhoScalar _ =>
          A ← read_local "Ab1_ld" (Ab1_ld s);
          match A with
          | One A =>
              y0 ← read_local "y" (y s);
              U ← not_None (Uld e);
              mret (set_y s (vadd (dot A y0) (vscale (dt s) (dot U (h s)))))
          | Many _ => raise TypeError
          end
      | RhoList _ =>
          ys0 ← read_local "ys" (ys s);
          ys' ← for_range (λ i yi,
              A ← read_local "Ab1_ld" (Ab1_ld s);
              match A with
              | Many As =>
                  Ai ← index As i;
                  U ← not_None (Uld e);
                  mret (vadd (dot Ai yi) (vscale (dt s) (dot U (h s))))
              | One _ => raise TypeError
              end) 0 ys0;
          mret (set_ys s ys')
      end;
  A ← read_local "Ab1_h" (Ab1_h s);
  mret (set_h s (vadd (dot A (h s)) (vscale (dt s) (Uh e)))).

(** Lines 234-242: the backward sub-step. *)
Definition backward (p : params) (s : locals) : M locals :=
  s ← match p_rho p with
      | RhoNone => mret s
      | RhoScalar _ =>
          F ← read_local "Ab2_ld" (Ab2_ld s);
          match F with
          | One F => y0 ← read_local "y" (y s); mret (set_y s (F y0))
          | Many _ => raise TypeError
          end
      | RhoList _ =>
          ys0 ← read_local "ys" (ys s);
          ys' ← for_range (λ i yi,
              F ← read_local "Ab2_ld" (Ab2_ld s);
              match F with
              | Many Fs => Fi ← index Fs i; mret (Fi yi)
              | One _ => raise TypeError
              end) 0 ys0;
          mret (set_ys s ys')
      end;
  A ← read_local "Ab2_h" (Ab2_h s);
  mret (set_h s (dot A (h s))).

(** Lines 177-181: the step size of this step and the sizes at its midpoint. *)
Definition clip (p : params) (s : locals) : Qc :=
  if bool_decide (p_T p < elapsed_t s + dt s) then p_T p - elapsed_t s else dt s.

Definition sizes_at (p : params) (s : locals) (dt' : Qc) : list Qc :=
  match p_nu p with
  | NuCallable f => f (elapsed_t s + dt' / 2)
  | NuFixed _ => nus s
  end.

(** One pass through the body of the while loop (lines 177-246). *)
Definition step (p : params) (e : env) (s : locals) : M locals :=
  let dt' := clip p s in
  let s := set_step s dt' (sizes_at p s dt') in
  s ← rebuild p e s;
  s ← forward p e s;
  s ← backward p s;
  mret (advance s).

(** [while elapsed_t < T: ...], at most [fuel] tests of the condition. *)
Fixpoint while (fuel : nat) (p : params) (e : env) (s : locals) : M locals :=
  match fuel with
  | O => out_of_fuel
  | S fuel' =>
      if bool_decide (elapsed_t s < p_T p) then
        s' ← step p e s; while fuel' p e s'
      else mret s
  end.

(** Lines 147-174: everything before the loop. *)
Definition prologue (Y : list vec) (p : params) : M (env * locals) :=
  num_pops ← match p_num_pops p with
             | Some n => mret n
             | None =>
                 match p_nu p with
                 | NuFixed sizes => mret (length sizes)
                 | NuCallable _ => raise TypeError     (* len() of a function *)
                 end
             end;
  h ← match last Y with Some h => mret h | None => raise IndexError end;
  let y := if bool_decide (length Y = 2%nat) then head Y else None in
  let ys := if bool_decide (length Y = 2%nat) then None else Some (removelast Y) in
  let nus := match p_nu p with
             | NuCallable f => f 0
             | NuFixed sizes => sizes
             end in
  '(Uh, Uld) ← mutation num_pops (p_theta p) (p_frozen p) (p_selfing p) (p_rho p);
  R ← (if is_not_None (p_rho p)
       then R ← recombination num_pops (p_rho p) (p_frozen p) (p_selfing p); mret (Some R)
       else mret None);
  Mig ← match p_m p with
        | Some m =>
            if bool_decide (1 < num_pops)%nat && any_nonzero m then
              '(Mh, Mld) ← migration num_pops m (p_frozen p) (p_rho p);
              mret (Some Mh, Some Mld)
            else mret (None, None)
        | None => mret (None, None)
        end;
  mret ({| num_pops := num_pops; Uh := Uh; Uld := Uld; R := R;
           Mh := Mig.1; Mld := Mig.2 |},
        {| h := h; y := y; ys := ys; nus := nus; dt := p_dt p;
           dt_last := p_dt p; nus_last := nus; elapsed_t := 0;
           Ab1_h := None; Ab2_h := None; Ab1_ld := None; Ab2_ld := None |}).

(** Lines 248-254: write the vectors back into [Y]. *)
Definition epilogue (Y : list vec) (p : params) (s : locals) : M (list vec) :=
  let Y := removelast Y ++ [h s] in
  if isscalar (p_rho p) then
    y ← read_local "y" (y s);
    mret (<[0%nat := y]> Y)
  else
    ys ← read_local "ys" (ys s);
    mret (ys ++ [h s]).

Definition integrate (fuel : nat) (Y : list vec) (p : params) : M (list vec) :=
  '(e, s) ← prologue Y p;
  s ← while fuel p e s;
  epilogue Y p s.

(** ** steady_state and equilibrium_ld (Numerics.py, lines 257-295) *)

(** The argument [selfing_rate]: absent, a scalar, or a list. *)
Inductive selfing_arg :=
| SelfNone
| SelfScalar (f : Qc)
| SelfList (fs : list Qc).

(** [for r in rho: if r < 0: raise ValueError(msg)] *)
Fixpoint check_rhos (msg : string) (rs : list Qc) : M unit :=
  match rs with
  | [] => mret tt
  | r :: rs' =>
      if bool_decide (r < 0) then raise (ValueError msg) else check_rhos msg rs'
  end.

(** The test of [rho] that opens both equilibrium solvers (lines 260-266 and
    302-308). *)
Definition check_rho (msg_scalar msg_list : string) (rho : rho_arg) : M unit :=
  match rho with
  | RhoNone => mret tt
  | RhoScalar r =>
      if bool_decide (r < 0) then raise (ValueError msg_scalar) else mret tt
  | RhoList rs => check_rhos msg_list rs
  end.

Definition equilibrium_ld (theta rho : Qc) (selfing_rate : option Qc) : M vec :=
  let h_ss := match selfing_rate with
              | None => array1 theta
              | Some f => array1 (theta * (1 - f / 2))
              end in
  tell (Call_mutation_ld 1 theta);;
  let U := mutation_ld 1 theta None (Some [selfing_rate]) in
  tell (Call_recombination 1 rho);;
  let R := recombination_ld 1 rho None (Some [selfing_rate]) in
  tell (Call_drift_ld 1 [1]);;
  let D := drift_ld 1 [1] None in
  tell Call_factorized;;
  mret (factorized (madd D R) (vneg (dot U h_ss))).

(** [[equilibrium_ld(theta, r, selfing_rate) for r in rho]] *)
Fixpoint equilibrium_lds (theta : Qc) (rs : list Qc) (selfing_rate : option Qc)
  : M (list vec) :=
  match rs with
  | [] => mret []
  | r :: rs' =>
      y ← equilibrium_ld theta r selfing_rate;
      ys ← equilibrium_lds theta rs' selfing_rate;
      mret (y :: ys)
  end.

Definition steady_state (theta : Qc) (rho : rho_arg) (selfing_rate : selfing_arg)
  : M (list vec) :=
  (if bool_decide (theta ≤ 0) then raise (ValueError "theta must be positive")
   else mret tt);;
  check_rho "rho cannot be negative" "rho values cannot be negative" rho;;
  '(h_ss, selfing_rate) ←
    match selfing_rate with
    | SelfNone => mret (array1 theta, None)
    | SelfList _ => raise (ValueError "selfing rate must be a scalar")
    | SelfScalar f =>
        if bool_decide (f < 0) || bool_decide (1 < f)
        then raise (ValueError "selfing rate must be between 0 and 1")
        else mret (array1 (theta * (1 - f / 2)), Some f)
    end;
  match rho with
  | RhoList rs =>
      ys_ss ← equilibrium_lds theta rs selfing_rate;
      mret (ys_ss ++ [h_ss])
  | RhoScalar r =>
      y_ss ← equilibrium_ld theta r selfing_rate;
      mret [y_ss; h_ss]
  | RhoNone => mret [h_ss]
  end.

(** ** steady_state_two_pop (Numerics.py, lines 298-350) *)

(** [for f in selfing_rate: if f < 0 or f > 1: raise ValueError(...)] *)
Fixpoint check_selfing (fs : list Qc) : M unit :=
  match fs with
  | [] => mret tt
  | f :: fs' =>
      if bool_decide (f < 0) || bool_decide (1 < f)
      then raise (ValueError "selfing rates must be between 0 and 1")
      else check_selfing fs'
  end.

Definition two_pop_ld_ss (nu0 nu1 m01 m10 theta rho : Qc) (selfing_rate : selfing_t)
    (h_ss : vec) : M vec :=
  tell (Call_mutation_ld 2 theta);;
  let U := mutation_ld 2 theta None selfing_rate in
  tell (Call_recombination 2 rho);;
  let R := recombination_ld 2 rho None selfing_rate in
  tell (Call_drift_ld 2 [nu0; nu1]);;
  let D := drift_ld 2 [nu0; nu1] None in
  tell (Call_migration_ld 2);;
  let Mm := migration_ld 2 [[0; m01]; [m10; 0]] None in
  tell Call_factorized;;
  mret (factorized (madd (madd D R) Mm) (vneg (dot U h_ss))).

Fixpoint two_pop_ld_sss (nu0 nu1 m01 m10 theta : Qc) (rs : list Qc)
    (selfing_rate : selfing_t) (h_ss : vec) : M (list vec) :=
  match rs with
  | [] => mret []
  | r :: rs' =>
      y ← two_pop_ld_ss nu0 nu1 m01 m10 theta r selfing_rate h_ss;
      ys ← two_pop_ld_sss nu0 nu1 m01 m10 theta rs' selfing_rate h_ss;
      mret (y :: ys)
  end.

Definition steady_state_two_pop (nus : list Qc) (m : mig_t) (rho : rho_arg)
    (theta : Qc) (selfing_rate : selfing_arg) : M (list vec) :=
  '(nu0, nu1) ← match nus with
                | [nu0; nu1] => mret (nu0, nu1)
                | _ => raise (ValueError "wrong number of values to unpack")
                end;
  m01 ← index m 0 ≫= λ row, index row 1;
  m10 ← index m 1 ≫= λ row, index row 0;
  check_rho "recombination rate cannot be negative"
            "recombination rate cannot be negative" rho;;
  (if bool_decide (theta ≤ 0) then raise (ValueError "mutation rate must be positive")
   else mret tt);;
  (if bool_decide (m01 ≤ 0) || bool_decide (m10 ≤ 0)
      || bool_decide (nu0 ≤ 0) || bool_decide (nu1 ≤ 0)
   then raise (ValueError "migration rates and relative population sizes must be positive")
   else mret tt);;
  selfing_rate ←
    match selfing_rate with
    | SelfNone => mret [0; 0]
    | SelfScalar _ => raise (ValueError "selfing rates must be given as list of length 2")
    | SelfList fs =>
        if negb (bool_decide (length fs = 2%nat))
        then raise (ValueError "selfing rates must be given as list of length 2")
        else check_selfing fs;; mret fs
    end;
  let selfing := Some (Some <$> selfing_rate) in
  tell (Call_migration_h 2);;
  let Mh := migration_h 2 [[0; m01]; [m10; 0]] None in
  tell (Call_drift_h 2 [nu0; nu1]);;
  let Dh := drift_h 2 [nu0; nu1] None in
  tell (Call_mutation_h 2 theta);;
  let Uh := mutation_h 2 theta None selfing in
  tell Call_inv;;
  let h_ss := dot (inv (madd Mh Dh)) (vneg Uh) in
  match rho with
  | RhoNone => mret [h_ss]
  | RhoScalar r =>
      y_ss ← two_pop_ld_ss nu0 nu1 m01 m10 theta r selfing h_ss;
      mret [y_ss; h_ss]
  | RhoList rs =>
      y_ss ← two_pop_ld_sss nu0 nu1 m01 m10 theta rs selfing h_ss;
      mret (y_ss ++ [h_ss])
  end.

(** * The vocabulary of the properties *)

(** ** Arguments of the equilibrium solvers *)

Definition rho_valid (rho : rho_arg) : Prop :=
  match rho with
  | RhoNone => True
  | RhoScalar r => 0 ≤ r
  | RhoList rs => Forall (λ r, 0 ≤ r) rs
  end.

Definition rho_negative (rho : rho_arg) : Prop :=
  match rho with
  | RhoNone => False
  | RhoScalar r => r < 0
  | RhoList rs => Exists (λ r, r < 0) rs
  end.

Definition selfing_out_of_range (sr : selfing_arg) : Prop :=
  match sr with
  | SelfNone => False
  | SelfScalar f => f < 0 ∨ 1 < f
  | SelfList fs => Exists (λ f, f < 0 ∨ 1 < f) fs
  end.

(** The result a computation returns, whatever was logged before. *)
Definition value_of {A} (c : M A) : res A := (c []).1.

(** The selfing rate [steady_state] hands to [equilibrium_ld] once the
    argument has passed the checks. *)
Definition selfing_scalar (sr : selfing_arg) : option Qc :=
  match sr with SelfScalar f => Some f | _ => None end.

Definition selfing_ok (sr : selfing_arg) : Prop :=
  match sr with
  | SelfNone => True
  | SelfScalar f => 0 ≤ f ≤ 1
  | SelfList _ => False
  end.

(** [m[i][j]] *)
Definition mig_entry (m : mig_t) (i j : nat) : option Qc :=
  m !! i ≫= λ row, row !! j.

(** ** What the code before the loop leaves behind *)

(** [num_pops] once line 148 has run, when it can be determined. *)
Definition resolve_num_pops (p : params) : option nat :=
  match p_num_pops p with
  | Some n => Some n
  | None => match p_nu p with NuFixed sizes => Some (length sizes) | _ => None end
  end.

Definition env_of (p : params) (n : nat) : env :=
  {| num_pops := n;
     Uh := mutation_h n (p_theta p) (p_frozen p) (p_selfing p);
     Uld := if is_not_None (p_rho p)
            then Some (mutation_ld n (p_theta p) (p_frozen p) (p_selfing p))
            else None;
     R := match p_rho p with
          | RhoNone => None
          | RhoScalar r =>
              Some (One (recombination_ld n r (p_frozen p) (p_selfing p)))
          | RhoList rs =>
              Some (Many ((λ r, recombination_ld n r (p_frozen p) (p_selfing p)) <$> rs))
          end;
     Mh := if has_migration n (p_m p)
           then Some (migration_h n (default [] (p_m p)) (p_frozen p)) else None;
     Mld := if has_migration n (p_m p)
            then Some (if is_not_None (p_rho p)
                       then Some (migration_ld n (default [] (p_m p)) (p_frozen p))
                       else None)
            else None |}.

Definition init_locals (Y : list vec) (p : params) (h0 : vec) : locals :=
  let nus0 := match p_nu p with NuCallable f => f 0 | NuFixed sizes => sizes end in
  {| h := h0;
     y := if bool_decide (length Y = 2%nat) then head Y else None;
     ys := if bool_decide (length Y = 2%nat) then None else Some (removelast Y);
     nus := nus0; dt := p_dt p; dt_last := p_dt p; nus_last := nus0;
     elapsed_t := 0;
     Ab1_h := None; Ab2_h := None; Ab1_ld := None; Ab2_ld := None |}.

(** The builder calls of lines 161-170, in order. *)
Definition prologue_calls (p : params) (n : nat) : list call :=
  Call_mutation_h n (p_theta p)
  :: (if is_not_None (p_rho p) then [Call_mutation_ld n (p_theta p)] else [])
  ++ match p_rho p with
     | RhoNone => []
     | RhoScalar r => [Call_recombination n r]
     | RhoList rs => Call_recombination n <$> rs
     end
  ++ (if has_migration n (p_m p)
      then Call_migration_h n
           :: (if is_not_None (p_rho p) then [Call_migration_ld n] else [])
      else []).

(** ** The operators a pass is built on *)

(** The combined operator of the heterozygosity subsystem (lines 187, 194)
    and of the LD subsystem at rate [r] (lines 190-199), for sizes [nus]. *)
Definition op_h (p : params) (n : nat) (nus : list Qc) : mat :=
  if has_migration n (p_m p)
  then madd (drift_h n nus (p_frozen p))
            (migration_h n (default [] (p_m p)) (p_frozen p))
  else drift_h n nus (p_frozen p).

Definition op_ld (p : params) (n : nat) (nus : list Qc) (r : Qc) : mat :=
  if has_migration n (p_m p)
  then madd (madd (drift_ld n nus (p_frozen p))
                  (migration_ld n (default [] (p_m p)) (p_frozen p)))
            (recombination_ld n r (p_frozen p) (p_selfing p))
  else madd (drift_ld n nus (p_frozen p))
            (recombination_ld n r (p_frozen p) (p_selfing p)).

Definition ops_ld (p : params) (n : nat) (nus : list Qc) : option (ld mat) :=
  match p_rho p with
  | RhoNone => None
  | RhoScalar r => Some (One (op_ld p n nus r))
  | RhoList rs => Some (Many (op_ld p n nus <$> rs))
  end.

(** The external calls of one assembly, in order. *)
Definition drift_calls (p : params) (n : nat) (nus : list Qc) : list call :=
  Call_drift_h n nus :: if is_not_None (p_rho p) then [Call_drift_ld n nus] else [].

Definition factor_calls (p : params) : list call :=
  match p_rho p with
  | RhoNone => []
  | RhoScalar _ => [Call_factorized]
  | RhoList rs => replicate (length rs) Call_factorized
  end.

Definition assembly_calls (p : params) (n : nat) (nus : list Qc) : list call :=
  drift_calls p n nus ++ Call_inv :: factor_calls p.

(** The locals once lines 185-222 have run on [s]. *)
Definition rebuilt (p : params) (n : nat) (s : locals) : locals :=
  let A := op_h p n (nus s) in
  let s1 := set_h_solvers s (half_fwd (dt s) A) (inv (half_bwd (dt s) A)) in
  match p_rho p with
  | RhoNone => s1
  | RhoScalar r =>
      let A := op_ld p n (nus s) r in
      set_ld_solvers s1 (One (half_fwd (dt s) A))
                        (One (factorized (half_bwd (dt s) A)))
  | RhoList rs =>
      set_ld_solvers s1
        (Many ((λ r, half_fwd (dt s) (op_ld p n (nus s) r)) <$> rs))
        (Many ((λ r, factorized (half_bwd (dt s) (op_ld p n (nus s) r))) <$> rs))
  end.

(** The solvers in [s] are those assembled for step size [d] and sizes
    [sizes]. *)
Definition built (p : params) (n : nat) (d : Qc) (sizes : list Qc) (s : locals)
  : Prop :=
  Ab1_h s = Some (half_fwd d (op_h p n sizes))
  ∧ Ab2_h s = Some (inv (half_bwd d (op_h p n sizes)))
  ∧ match p_rho p with
    | RhoNone => True
    | RhoScalar r =>
        Ab1_ld s = Some (One (half_fwd d (op_ld p n sizes r)))
        ∧ Ab2_ld s = Some (One (factorized (half_bwd d (op_ld p n sizes r))))
    | RhoList rs =>
        Ab1_ld s = Some (Many ((λ r, half_fwd d (op_ld p n sizes r)) <$> rs))
        ∧ Ab2_ld s
          = Some (Many ((λ r, factorized (half_bwd d (op_ld p n sizes r))) <$> rs))
    end.

(** ** The sub-steps *)

(** The sub-steps on one vector. *)
Definition h_forward (d : Qc) (A : mat) (U : vec) (h0 : vec) : vec :=
  vadd (dot (half_fwd d A) h0) (vscale d U).

Definition ld_forward (d : Qc) (A U : mat) (h0 y0 : vec) : vec :=
  vadd (dot (half_fwd d A) y0) (vscale d (dot U h0)).

Definition h_backward (d : Qc) (A : mat) (h0 : vec) : vec :=
  dot (inv (half_bwd d A)) h0.

Definition ld_backward (d : Qc) (A : mat) (y0 : vec) : vec :=
  factorized (half_bwd d A) y0.

(** [Uld] of the environment, when [rho] is given. *)
Definition U_ld (p : params) (n : nat) : mat :=
  mutation_ld n (p_theta p) (p_frozen p) (p_selfing p).

(** The locals after the forward sub-step, where it succeeds. *)
Definition forwarded (p : params) (n : nat) (s : locals) : locals :=
  let e := env_of p n in
  let A := op_h p n (nus s) in
  let s1 :=
    match p_rho p with
    | RhoNone => s
    | RhoScalar r =>
        match y s with
        | Some y0 =>
            set_y s (ld_forward (dt s) (op_ld p n (nus s) r) (U_ld p n) (h s) y0)
        | None => s
        end
    | RhoList rs =>
        match ys s with
        | Some l =>
            set_ys s (zip_with (λ r yi,
              ld_forward (dt s) (op_ld p n (nus s) r) (U_ld p n) (h s) yi) rs l)
        | None => s
        end
    end in
  set_h s1 (h_forward (dt s) A (Uh e) (h s)).

(** The LD vectors are there in the form [rho] asks for. *)
Definition ld_bound (p : params) (s : locals) : Prop :=
  match p_rho p with
  | RhoNone => True
  | RhoScalar _ => is_Some (y s)
  | RhoList rs => ∃ l, ys s = Some l ∧ (length l ≤ length rs)%nat
  end.

(** The locals after the backward sub-step, where it succeeds. *)
Definition backwarded (p : params) (n : nat) (s : locals) : locals :=
  let s1 :=
    match p_rho p with
    | RhoNone => s
    | RhoScalar r =>
        match y s with
        | Some y0 => set_y s (ld_backward (dt s) (op_ld p n (nus s) r) y0)
        | None => s
        end
    | RhoList rs =>
        match ys s with
        | Some l =>
            set_ys s (zip_with (λ r yi,
              ld_backward (dt s) (op_ld p n (nus s) r) yi) rs l)
        | None => s
        end
    end in
  set_h s1 (h_backward (dt s) (op_h p n (nus s)) (h s)).

(** ** One pass through the loop body *)

(** The locals at line 182: [dt] clipped, [nus] evaluated. *)
Definition entered (p : params) (s : locals) : locals :=
  set_step s (clip p s) (sizes_at p s (clip p s)).

(** The locals at line 223, after the assembly if there is one. *)
Definition assembled (p : params) (n : nat) (s : locals) : locals :=
  if recompute (entered p s) then rebuilt p n (entered p s) else entered p s.

(** The locals a successful pass leaves. *)
Definition stepped (p : params) (n : nat) (s : locals) : locals :=
  advance (backwarded p n (forwarded p n (assembled p n s))).

Definition step_calls (p : params) (n : nat) (s : locals) : list call :=
  if recompute (entered p s)
  then assembly_calls p n (nus (entered p s)) else [].

(** What holds of the locals whenever the loop condition is tested. *)
Definition loop_inv (p : params) (n : nat) (s : locals) : Prop :=
  ld_bound p s
  ∧ (elapsed_t s = 0 ∨ built p n (dt_last s) (nus_last s) s).

(** The solvers a pass works with. *)
Definition solvers_of (s : locals)
  : option mat * option mat * option (ld mat) * option (ld (vec → vec)) :=
  (Ab1_h s, Ab2_h s, Ab1_ld s, Ab2_ld s).

(** ** The states of a run *)

(** [reached p n s0 k s]: started on [s0], the loop has passed [k] times
    through its body and is about to test its condition on [s]. *)
Inductive reached (p : params) (n : nat) (s0 : locals) : nat → locals → Prop :=
| reached_O : reached p n s0 0 s0
| reached_S k s s' tr tr' :
    reached p n s0 k s →
    elapsed_t s < p_T p →
    step p (env_of p n) s tr = (Ok s', tr') →
    reached p n s0 (S k) s'.

(** [k] passes on [s], with the function that describes a successful pass. *)
Fixpoint run_steps (p : params) (n : nat) (k : nat) (s : locals) : locals :=
  match k with
  | O => s
  | S k' => run_steps p n k' (stepped p n s)
  end.

(** [k * d], by repeated addition. *)
Fixpoint ntimes (k : nat) (d : Qc) : Qc :=
  match k with
  | O => 0
  | S k' => d + ntimes k' d
  end.


(** ** A whole call as a function *)

(** The locals the loop ends on, within [fuel] tests of its condition, when
    every pass succeeds. *)
Fixpoint run_while (fuel : nat) (p : params) (n : nat) (s : locals) : option locals :=
  match fuel with
  | O => None
  | S fuel' =>
      if bool_decide (elapsed_t s < p_T p) then run_while fuel' p n (stepped p n s)
      else Some s
  end.

(** The external calls of these passes, in order. *)
Fixpoint run_calls (fuel : nat) (p : params) (n : nat) (s : locals) : list call :=
  match fuel with
  | O => []
  | S fuel' =>
      if bool_decide (elapsed_t s < p_T p)
      then step_calls p n s ++ run_calls fuel' p n (stepped p n s)
      else []
  end.

(** The number of vectors in [Y] fits the form of [rho]: two vectors for a
    scalar rate, any other number without a rate, and at most one LD vector
    per rate for a list of rates. *)
Definition shaped (Y : list vec) (p : params) : Prop :=
  match p_rho p with
  | RhoNone => length Y ≠ 2%nat
  | RhoScalar _ => length Y = 2%nat
  | RhoList rs => length Y ≠ 2%nat ∧ (length Y ≤ S (length rs))%nat
  end.

(** The list lines 248-254 return for the locals [s]. *)
Definition result_of (p : params) (s : locals) : list vec :=
  if isscalar (p_rho p) then option_list (y s) ++ [h s]
  else default [] (ys s) ++ [h s].

(** One pass on the heterozygosity vector and on one LD vector: the forward
    sub-step followed by the backward one, for step size [d] and sizes
    [sizes]. *)
Definition pass_h (p : params) (n : nat) (d : Qc) (sizes : list Qc) (h0 : vec) : vec :=
  h_backward d (op_h p n sizes)
    (h_forward d (op_h p n sizes)
       (mutation_h n (p_theta p) (p_frozen p) (p_selfing p)) h0).

Definition pass_ld (p : params) (n : nat) (d : Qc) (sizes : list Qc) (r : Qc)
    (h0 y0 : vec) : vec :=
  ld_backward d (op_ld p n sizes r)
    (ld_forward d (op_ld p n sizes r) (U_ld p n) h0 y0).

(** The same call with another [rho], [m] or [T]. *)
Definition with_rho (p : params) (rho : rho_arg) : params :=
  {| p_nu := p_nu p; p_T := p_T p; p_dt := p_dt p; p_theta := p_theta p;
     p_rho := rho; p_m := p_m p; p_num_pops := p_num_pops p;
     p_selfing := p_selfing p; p_frozen := p_frozen p |}.

Definition with_m (p : params) (m : option mig_t) : params :=
  {| p_nu := p_nu p; p_T := p_T p; p_dt := p_dt p; p_theta := p_theta p;
     p_rho := p_rho p; p_m := m; p_num_pops := p_num_pops p;
     p_selfing := p_selfing p; p_frozen := p_frozen p |}.

Definition with_T (p : params) (T : Qc) : params :=
  {| p_nu := p_nu p; p_T := T; p_dt := p_dt p; p_theta := p_theta p;
     p_rho := p_rho p; p_m := p_m p; p_num_pops := p_num_pops p;
     p_selfing := p_selfing p; p_frozen := p_frozen p |}.

(** The inversions in a log: one per assembly. *)
Definition inversions (tr : list call) : nat :=
  length (filter (λ c, c = Call_inv) tr).

(** The calls that concern the LD subsystem. *)
Definition ld_call (c : call) : bool :=
  match c with
  | Call_drift_ld _ _ | Call_mutation_ld _ _ | Call_recombination _ _
  | Call_migration_ld _ | Call_factorized => true
  | _ => false
  end.

(** The LD vectors are bound in the variable the epilogue reads. *)
Definition vectors_bound (p : params) (s : locals) : Prop :=
  ld_bound p s ∧ (p_rho p = RhoNone → is_Some (ys s)).

(** Two runs are at the same point: same heterozygosity vector, step size,
    sizes and elapsed time. *)
Definition in_step (s s' : locals) : Prop :=
  h s = h s' ∧ dt s = dt s' ∧ nus s = nus s' ∧ elapsed_t s = elapsed_t s'.

(** The LD vector of the second run is the [i]-th of the first. *)
Definition ld_at (i : nat) (s s' : locals) : Prop :=
  ∃ l yi, ys s = Some l ∧ l !! i = Some yi ∧ y s' = Some yi.

(** Two runs hold the same vectors, in the variable that [rho] selects for
    the LD vectors. *)
Definition same_vectors (p : params) (s s' : locals) : Prop :=
  h s = h s' ∧ if isscalar (p_rho p) then y s = y s' else ys s = ys s'.

(** ** The equilibrium solvers as functions *)

(** The rates in [rho], in order. *)
Definition rates (rho : rho_arg) : list Qc :=
  match rho with
  | RhoNone => []
  | RhoScalar r => [r]
  | RhoList rs => rs
  end.

(** The heterozygosity [steady_state] returns, and the LD vector
    [equilibrium_ld] solves for at rate [r]. *)
Definition h_ss_of (theta : Qc) (f : option Qc) : vec :=
  match f with
  | None => array1 theta
  | Some f => array1 (theta * (1 - f / 2))
  end.

Definition ld_ss_of (theta : Qc) (f : option Qc) (r : Qc) : vec :=
  factorized (madd (drift_ld 1 [1] None) (recombination_ld 1 r None (Some [f])))
             (vneg (dot (mutation_ld 1 theta None (Some [f])) (h_ss_of theta f))).

(** The external calls of one [equilibrium_ld]. *)
Definition equilibrium_calls (theta r : Qc) : list call :=
  [Call_mutation_ld 1 theta; Call_recombination 1 r; Call_drift_ld 1 [1];
   Call_factorized].

(** The same for two populations. *)
Definition two_pop_selfing (sr : selfing_arg) : selfing_t :=
  Some (Some <$> match sr with SelfList fs => fs | _ => [0; 0] end).

Definition two_pop_selfing_ok (sr : selfing_arg) : Prop :=
  match sr with
  | SelfNone => True
  | SelfScalar _ => False
  | SelfList fs => length fs = 2%nat ∧ Forall (λ f, 0 ≤ f ≤ 1) fs
  end.

Definition two_pop_h_ss (nu0 nu1 m01 m10 theta : Qc) (selfing : selfing_t) : vec :=
  dot (inv (madd (migration_h 2 [[0; m01]; [m10; 0]] None)
                 (drift_h 2 [nu0; nu1] None)))
      (vneg (mutation_h 2 theta None selfing)).

Definition two_pop_ld_of (nu0 nu1 m01 m10 theta : Qc) (selfing : selfing_t)
    (h_ss : vec) (r : Qc) : vec :=
  factorized (madd (madd (drift_ld 2 [nu0; nu1] None)
                         (recombination_ld 2 r None selfing))
                   (migration_ld 2 [[0; m01]; [m10; 0]] None))
             (vneg (dot (mutation_ld 2 theta None selfing) h_ss)).

Definition two_pop_h_calls (nu0 nu1 theta : Qc) : list call :=
  [Call_migration_h 2; Call_drift_h 2 [nu0; nu1]; Call_mutation_h 2 theta;
   Call_inv].

Definition two_pop_ld_calls (nu0 nu1 theta r : Qc) : list call :=
  [Call_mutation_ld 2 theta; Call_recombination 2 r; Call_drift_ld 2 [nu0; nu1];
   Call_migration_ld 2; Call_factorized].

End Numerics.

(** * A concrete instance

    One population and one-dimensional vectors: vectors and matrices are
    rationals, a matrix acts by multiplication, the inverse is the
    reciprocal.  The builders stand in for module Matrices; the properties
    above hold for any builders, these make the model run on inputs. *)

Module OnePop.

#[export] Instance scalar_linalg : LinAlg := {|
  vec := Qc;
  mat := Qc;
  array1 x := x;
  vadd := Qcplus;
  vscale := Qcmult;
  vneg := Qcopp;
  shape0 _ := 1%nat;
  eye _ := 1;
  madd := Qcplus;
  msub := Qcminus;
  mscale := Qcmult;
  dot := Qcmult;
  inv A := / A;
  factorized A b := b / A;
|}.

#[export] Instance scalar_matrices : MatricesMod := {|
  drift_h _ sizes _ := - / default 1 (head sizes);
  drift_ld _ sizes _ := - (Q2Qc 3 * / default 1 (head sizes));
  mutation_h _ theta _ _ := theta;
  mutation_ld _ theta _ _ := theta;
  recombination_ld _ r _ _ := - r;
  migration_h _ _ _ := 0;
  migration_ld _ _ _ := 0;
|}.

Definition q (a : Z) (b : positive) : Qc := Q2Qc (a # b).

(** [integrate(Y, [1.0], T, dt=0.001, theta=0.001, rho=...)] *)
Definition call (T : Qc) (theta : Qc) (rho : rho_arg) : params :=
  {| p_nu := NuFixed [1]; p_T := T; p_dt := q 1 1000; p_theta := theta;
     p_rho := rho; p_m := None; p_num_pops := None; p_selfing := None;
     p_frozen := None |}.

(** The same with sizes that grow in time. *)
Definition growing (T : Qc) (rho : rho_arg) : params :=
  {| p_nu := NuCallable (λ t, [1 + t]); p_T := T; p_dt := q 1 1000;
     p_theta := q 1 1000; p_rho := rho; p_m := None; p_num_pops := Some 1%nat;
     p_selfing := None; p_frozen := None |}.

Definition Y_h : list vec := [q 1 1000].

Definition Y_ld : list vec := [q 1 3000000; q 1 1000].

Definition Y_lds : list vec := [q 1 3000000; q 1 4000000; q 1 1000].

(** Three passes, the last one clipped: 0.001, 0.001, 0.0005. *)
Definition p3 : params := call (q 1 400) (q 1 1000) (RhoScalar 1).

Definition s3 : locals := init_locals Y_ld p3 (q 1 1000).

(** A step size of 0: [elapsed_t] stays 0. *)
Definition p_zero_dt : params :=
  {| p_nu := NuFixed [1]; p_T := q 1 400; p_dt := 0; p_theta := q 1 1000;
     p_rho := RhoNone; p_m := None; p_num_pops := None; p_selfing := None;
     p_frozen := None |}.

(** A function for [nu] and no [num_pops]. *)
Definition p_no_num_pops : params :=
  {| p_nu := NuCallable (λ t, [1 + t]); p_T := 0; p_dt := q 1 1000;
     p_theta := q 1 1000; p_rho := RhoNone; p_m := None; p_num_pops := None;
     p_selfing := None; p_frozen := None |}.

(** The number of assemblies in a log: each one inverts once. *)
Definition assemblies (l : log) : nat :=
  length (filter (λ c, c = Call_inv) l).

End OnePop.

(** * Properties *)

(** ** Linear arithmetic on [Qc], through [Q] *)

Lemma Qc_eq_Qeq (x y : Qc) : x = y ↔ (this x == this y)%Q.
Proof. split; [by intros ->|apply Qc_is_canon]. Qed.

Ltac qc_lra :=
  repeat match goal with
         | |- context [ntimes ?k ?d] =>
             let x := fresh "x" in set (x := ntimes k d) in *; clearbody x
         | H : context [ntimes ?k ?d] |- _ =>
             let x := fresh "x" in set (x := ntimes k d) in *; clearbody x
         | H : @eq Qc _ _ |- _ => apply Qc_eq_Qeq in H
         | H : ¬ @eq Qc _ _ |- _ => rewrite Qc_eq_Qeq in H
         end;
  try apply Qc_eq_Qeq;
  unfold Qcle, Qclt, Qcminus, Qcplus, Qcopp, Qcmult, Q2Qc in *;
  simpl this in *;
  rewrite ?Qred_correct in *;
  lra.

Lemma ntimes_spec k d : (this (ntimes k d) == inject_Z (Z.of_nat k) * this d)%Q.
Proof.
  induction k as [|k IH].
  - simpl ntimes. unfold Q2Qc. simpl this. rewrite Qred_correct. simpl. ring.
  - rewrite Nat2Z.inj_succ. unfold Z.succ. rewrite inject_Z_plus.
    simpl ntimes. unfold Qcplus, Q2Qc. simpl this.
    rewrite Qred_correct, IH. ring.
Qed.

Lemma ntimes_archimedean (T d : Qc) : 0 < d → ∃ k, T ≤ ntimes k d.
Proof.
  intros Hd.
  destruct (Qarchimedean (this T / this d)) as [k Hk].
  exists (Pos.to_nat k). unfold Qcle, Qclt in *.
  rewrite ntimes_spec, positive_nat_Z. 
  assert (0 < this d)%Q as Hd' by (simpl in Hd; unfold Q2Qc in Hd; simpl in Hd; rewrite Qred_correct in Hd; done).
  apply Qlt_le_weak.
  apply (Qmult_lt_compat_r _ _ (this d)) in Hk; [|done].
  rewrite (Qmult_comm (this T / this d)), Qmult_div_r in Hk; [done|].
  intros Hz. rewrite Hz in Hd'. by apply Qlt_irrefl in Hd'.
Qed.

Section Properties.
Context {LA : LinAlg} {MM : MatricesMod}.

(** ** The monad *)

Ltac unfold_M :=
  unfold mbind, M_bind, mret, M_ret, raise, tell, read_local, not_None, index in *.

Lemma bind_run {A B} (c : M A) (f : A → M B) tr :
  (c ≫= f) tr = match c tr with
                | (Ok a, tr') => f a tr'
                | (Raise e, tr') => (Raise e, tr')
                | (OutOfFuel, tr') => (OutOfFuel, tr')
                end.
Proof. reflexivity. Qed.

Lemma bind_ok {A B} (c : M A) (f : A → M B) tr a tr' :
  c tr = (Ok a, tr') → (c ≫= f) tr = f a tr'.
Proof. intros Hc. by rewrite bind_run, Hc. Qed.

Lemma bind_raise {A B} (c : M A) (f : A → M B) tr e tr' :
  c tr = (Raise e, tr') → (c ≫= f) tr = (Raise e, tr').
Proof. intros Hc. by rewrite bind_run, Hc. Qed.

Lemma index_lookup {A} (l : list A) i a tr :
  l !! i = Some a → index l i tr = (Ok a, tr).
Proof. unfold index. by intros ->. Qed.

(** ** The equilibrium solvers *)

Lemma check_rhos_valid msg rs tr :
  Forall (λ r, 0 ≤ r) rs → check_rhos msg rs tr = (Ok tt, tr).
Proof.
  induction 1 as [|r rs Hr _ IH]; simpl; [done|].
  rewrite bool_decide_eq_false_2; [done|]. by apply Qcle_not_lt.
Qed.

Lemma check_rhos_negative msg rs tr :
  Exists (λ r, r < 0) rs → check_rhos msg rs tr = (Raise (ValueError msg), tr).
Proof.
  induction 1 as [r rs Hr|r rs _ IH]; simpl.
  - by rewrite bool_decide_eq_true_2.
  - case_bool_decide; [done|apply IH].
Qed.

Lemma check_rhos_cases msg rs tr :
  check_rhos msg rs tr = (Ok tt, tr)
  ∨ check_rhos msg rs tr = (Raise (ValueError msg), tr).
Proof.
  induction rs as [|r rs IH]; simpl; [by left|].
  case_bool_decide; [by right|apply IH].
Qed.

Lemma check_rho_valid msg1 msg2 rho tr :
  rho_valid rho → check_rho msg1 msg2 rho tr = (Ok tt, tr).
Proof.
  destruct rho as [|r|rs]; simpl; [done| |apply check_rhos_valid].
  intros Hr. rewrite bool_decide_eq_false_2; [done|]. by apply Qcle_not_lt.
Qed.

Lemma check_rho_negative msg1 msg2 rho tr :
  rho_negative rho → ∃ msg, check_rho msg1 msg2 rho tr = (Raise (ValueError msg), tr).
Proof.
  destruct rho as [|r|rs]; simpl; [done| |].
  - intros Hr. rewrite bool_decide_eq_true_2 by done. eauto.
  - intros Hrs. rewrite check_rhos_negative by done. eauto.
Qed.

Lemma check_rho_cases msg1 msg2 rho tr :
  check_rho msg1 msg2 rho tr = (Ok tt, tr)
  ∨ ∃ msg, check_rho msg1 msg2 rho tr = (Raise (ValueError msg), tr).
Proof.
  destruct rho as [|r|rs]; simpl; [by left| |].
  - case_bool_decide; [right|left]; eauto.
  - destruct (check_rhos_cases msg2 rs tr) as [->| ->]; eauto.
Qed.

Lemma check_selfing_out_of_range fs tr :
  Exists (λ f, f < 0 ∨ 1 < f) fs →
  ∃ msg, check_selfing fs tr = (Raise (ValueError msg), tr).
Proof.
  induction 1 as [f fs Hf|f fs _ IH]; simpl.
  - destruct Hf; [rewrite bool_decide_eq_true_2 by done; eauto|].
    rewrite (bool_decide_eq_true_2 (1 < f)) by done.
    rewrite orb_true_r. eauto.
  - destruct (_ || _); eauto.
Qed.

Lemma equilibrium_ld_ok theta r sr tr :
  ∃ v tr', equilibrium_ld theta r sr tr = (Ok v, tr')
           ∧ value_of (equilibrium_ld theta r sr) = Ok v.
Proof. unfold equilibrium_ld, value_of. unfold_M. simpl. eauto. Qed.

Lemma equilibrium_lds_ok theta rs sr tr :
  ∃ vs tr', equilibrium_lds theta rs sr tr = (Ok vs, tr')
    ∧ length vs = length rs
    ∧ ∀ i r, rs !! i = Some r →
        ∃ v, vs !! i = Some v ∧ value_of (equilibrium_ld theta r sr) = Ok v.
Proof.
  revert tr. induction rs as [|r rs IH]; intros tr; simpl.
  - exists [], tr. split_and!; [done..|]. intros i r Hi. by destruct i.
  - destruct (equilibrium_ld_ok theta r sr tr) as (v & tr1 & Hv & Hval).
    destruct (IH tr1) as (vs & tr2 & Hvs & Hlen & Hnth).
    exists (v :: vs), tr2. unfold mbind, M_bind at 1. rewrite Hv.
    unfold mbind, M_bind at 1. rewrite Hvs. split_and!; [done|simpl; lia|].
    intros [|i] r' Hi; simpl in *; [|by apply Hnth].
    injection Hi as <-. eauto.
Qed.

Lemma steady_state_valid theta rho sr tr :
  0 < theta → rho_valid rho →
  steady_state theta rho sr tr =
    match sr with
    | SelfNone =>
        match rho with
        | RhoList rs =>
            (ys_ss ← equilibrium_lds theta rs None; mret (ys_ss ++ [array1 theta])) tr
        | RhoScalar r =>
            (y_ss ← equilibrium_ld theta r None; mret [y_ss; array1 theta]) tr
        | RhoNone => (Ok [array1 theta], tr)
        end
    | SelfList _ => (Raise (ValueError "selfing rate must be a scalar"), tr)
    | SelfScalar f =>
        if bool_decide (f < 0) || bool_decide (1 < f)
        then (Raise (ValueError "selfing rate must be between 0 and 1"), tr)
        else
          match rho with
          | RhoList rs =>
              (ys_ss ← equilibrium_lds theta rs (Some f);
               mret (ys_ss ++ [array1 (theta * (1 - f / 2))])) tr
          | RhoScalar r =>
              (y_ss ← equilibrium_ld theta r (Some f);
               mret [y_ss; array1 (theta * (1 - f / 2))]) tr
          | RhoNone => (Ok [array1 (theta * (1 - f / 2))], tr)
          end
    end.
Proof.
  intros Htheta Hrho. unfold steady_state.
  rewrite bool_decide_eq_false_2 by by apply Qclt_not_le.
  unfold mbind at 1 2, M_bind at 1 2. unfold mret at 1, M_ret at 1.
  rewrite check_rho_valid by done.
  destruct sr as [|f|fs]; [by destruct rho| |done].
  unfold mbind at 1, M_bind at 1. destruct (_ || _); [done|by destruct rho].
Qed.

Lemma in_unit_interval f :
  0 ≤ f ≤ 1 → bool_decide (f < 0) || bool_decide (1 < f) = false.
Proof.
  intros [Hlo Hhi].
  rewrite !bool_decide_eq_false_2; [done|by apply Qcle_not_lt..].
Qed.

(** C4.  For theta > 0 and no negative recombination rate, [steady_state]
    returns a list whose last entry, the heterozygosity vector, is
    [np.array([theta])] when no selfing rate is given and
    [np.array([theta * (1 - f / 2)])] for a scalar selfing rate f in [0, 1];
    without recombination rates the list is that vector alone and nothing is
    built or solved. *)
Theorem steady_state_heterozygosity theta rho :
  0 < theta → rho_valid rho →
  (∀ tr, ∃ Y_ss tr',
      steady_state theta rho SelfNone tr = (Ok Y_ss, tr')
      ∧ last Y_ss = Some (array1 theta)
      ∧ (rho = RhoNone → Y_ss = [array1 theta] ∧ tr' = tr))
  ∧ (∀ f, 0 ≤ f ≤ 1 → ∀ tr, ∃ Y_ss tr',
      steady_state theta rho (SelfScalar f) tr = (Ok Y_ss, tr')
      ∧ last Y_ss = Some (array1 (theta * (1 - f / 2)))
      ∧ (rho = RhoNone → Y_ss = [array1 (theta * (1 - f / 2))] ∧ tr' = tr)).
Proof.
  intros Htheta Hrho. split.
  - intros tr. rewrite steady_state_valid by done.
    destruct rho as [|r|rs].
    + eauto 10.
    + destruct (equilibrium_ld_ok theta r None tr) as (v & tr' & Hv & _).
      unfold mbind, M_bind. rewrite Hv. eexists _, _. by split_and!.
    + destruct (equilibrium_lds_ok theta rs None tr) as (vs & tr' & Hvs & _).
      unfold mbind, M_bind. rewrite Hvs. eexists _, _.
      split_and!; [done|apply last_snoc|done].
  - intros f Hf tr. rewrite steady_state_valid by done.
    rewrite in_unit_interval by done.
    destruct rho as [|r|rs].
    + eauto 10.
    + destruct (equilibrium_ld_ok theta r (Some f) tr) as (v & tr' & Hv & _).
      unfold mbind, M_bind. rewrite Hv. eexists _, _. by split_and!.
    + destruct (equilibrium_lds_ok theta rs (Some f) tr) as (vs & tr' & Hvs & _).
      unfold mbind, M_bind. rewrite Hvs. eexists _, _.
      split_and!; [done|apply last_snoc|done].
Qed.

(** C5.  For theta > 0, non-negative rates r_1..r_k and a valid selfing rate,
    [steady_state] returns k LD vectors followed by the heterozygosity
    vector, and the i-th LD vector is the one [equilibrium_ld] returns at
    r_i, which is also the LD vector of [steady_state] called with the scalar
    r_i, with the same theta and selfing rate. *)
Theorem steady_state_batch theta rs sr :
  0 < theta → Forall (λ r, 0 ≤ r) rs → selfing_ok sr →
  ∀ tr, ∃ ys_ss h_ss tr',
    steady_state theta (RhoList rs) sr tr = (Ok (ys_ss ++ [h_ss]), tr')
    ∧ length ys_ss = length rs
    ∧ ∀ i r, rs !! i = Some r →
        ∃ y_i, ys_ss !! i = Some y_i
          ∧ value_of (equilibrium_ld theta r (selfing_scalar sr)) = Ok y_i
          ∧ value_of (steady_state theta (RhoScalar r) sr) = Ok [y_i; h_ss].
Proof.
  intros Htheta Hrs Hsr tr.
  rewrite (steady_state_valid theta (RhoList rs)) by done.
  assert (∀ r h, 0 ≤ r →
    (∀ tr0, steady_state theta (RhoScalar r) sr tr0
       = (y_ss ← equilibrium_ld theta r (selfing_scalar sr); mret [y_ss; h]) tr0) →
    ∀ y_i, value_of (equilibrium_ld theta r (selfing_scalar sr)) = Ok y_i →
    value_of (steady_state theta (RhoScalar r) sr) = Ok [y_i; h]) as Hone.
  { intros r h Hr Heq y_i Hy. unfold value_of in *. rewrite Heq.
    unfold mbind, M_bind.
    destruct (equilibrium_ld theta r (selfing_scalar sr) []) as [[v| |] tr1];
      simpl in *; congruence. }
  destruct sr as [|f|fs]; [| |done]; simpl in *.
  - destruct (equilibrium_lds_ok theta rs None tr) as (vs & tr' & Hvs & Hlen & Hnth).
    unfold mbind, M_bind. rewrite Hvs. eexists vs, _, tr'. split_and!; [done..|].
    intros i r Hi. destruct (Hnth i r Hi) as (v & Hv & Hval).
    exists v. split_and!; [done..|].
    assert (0 ≤ r) as Hr by by eapply (Forall_lookup_1 _ rs).
    apply Hone; [done| |done].
    intros tr0. by rewrite (steady_state_valid theta (RhoScalar r)).
  - rewrite in_unit_interval by done.
    destruct (equilibrium_lds_ok theta rs (Some f) tr)
      as (vs & tr' & Hvs & Hlen & Hnth).
    unfold mbind, M_bind. rewrite Hvs. eexists vs, _, tr'. split_and!; [done..|].
    intros i r Hi. destruct (Hnth i r Hi) as (v & Hv & Hval).
    exists v. split_and!; [done..|].
    assert (0 ≤ r) as Hr by by eapply (Forall_lookup_1 _ rs).
    apply Hone; [done| |done].
    intros tr0. rewrite (steady_state_valid theta (RhoScalar r)) by done.
    by rewrite in_unit_interval.
Qed.

Lemma steady_state_rejects theta rho sr tr :
  theta ≤ 0 ∨ rho_negative rho ∨ selfing_out_of_range sr →
  ∃ msg, steady_state theta rho sr tr = (Raise (ValueError msg), tr).
Proof.
  intros Hbad. unfold steady_state.
  case_bool_decide as Htheta; [by eexists|].
  unfold mbind at 1 2, M_bind at 1 2. unfold mret at 1, M_ret at 1.
  destruct (check_rho_cases "rho cannot be negative"
              "rho values cannot be negative" rho tr) as [Hrho|[msg ->]];
    [|by eexists].
  rewrite Hrho. unfold mbind at 1, M_bind at 1.
  destruct Hbad as [?|[Hneg|Hsr]]; [done| |].
  { destruct (check_rho_negative "rho cannot be negative"
                "rho values cannot be negative" rho tr Hneg) as [msg Hmsg].
    congruence. }
  destruct sr as [|f|fs]; simpl in Hsr; [done| |by eexists].
  assert (bool_decide (f < 0) || bool_decide (1 < f) = true) as ->;
    [|by eexists].
  destruct Hsr;
    [rewrite bool_decide_eq_true_2 by done|
     rewrite (bool_decide_eq_true_2 (1 < f)) by done];
    [done|apply orb_true_r].
Qed.

Lemma steady_state_two_pop_rejects nus m rho theta sr m01 m10 tr :
  mig_entry m 0 1 = Some m01 → mig_entry m 1 0 = Some m10 →
  theta ≤ 0 ∨ rho_negative rho ∨ selfing_out_of_range sr
    ∨ Exists (λ nu, nu ≤ 0) nus ∨ m01 ≤ 0 ∨ m10 ≤ 0 →
  ∃ msg, steady_state_two_pop nus m rho theta sr tr
         = (Raise (ValueError msg), tr).
Proof.
  intros Hm01 Hm10 Hbad.
  unfold steady_state_two_pop.
  destruct nus as [|nu0 [|nu1 [|nu2 nus]]]; try by eexists.
  rewrite bind_run. simpl.
  unfold mig_entry in Hm01, Hm10.
  destruct (m !! 0%nat) as [row0|] eqn:Hrow0; [simpl in Hm01|done].
  destruct (m !! 1%nat) as [row1|] eqn:Hrow1; [simpl in Hm10|done].
  rewrite (bind_ok _ _ _ m01 tr)
    by by rewrite (bind_ok _ _ _ _ _ (index_lookup _ _ _ _ Hrow0)), (index_lookup _ _ _ _ Hm01).
  rewrite (bind_ok _ _ _ m10 tr)
    by by rewrite (bind_ok _ _ _ _ _ (index_lookup _ _ _ _ Hrow1)), (index_lookup _ _ _ _ Hm10).
  destruct (check_rho_cases "recombination rate cannot be negative"
              "recombination rate cannot be negative" rho tr)
    as [Hrho|[msg Hrho]]; [|rewrite (bind_raise _ _ _ _ _ Hrho); by eexists].
  rewrite (bind_ok _ _ _ _ _ Hrho). rewrite bind_run.
  case_bool_decide as Htheta; [by eexists|]. simpl.
  rewrite bind_run.
  destruct (bool_decide (m01 ≤ 0) || bool_decide (m10 ≤ 0)
            || bool_decide (nu0 ≤ 0) || bool_decide (nu1 ≤ 0)) eqn:Hpos;
    [by eexists|].
  simpl.
  apply orb_false_elim in Hpos as [Hpos Hnu1].
  apply orb_false_elim in Hpos as [Hpos Hnu0].
  apply orb_false_elim in Hpos as [H01 H10].
  apply bool_decide_eq_false_1 in Hnu1, Hnu0, H01, H10.
  destruct Hbad as [?|[Hneg|[Hsr|[Hnus|[?|?]]]]]; [done| | | |done..].
  { destruct (check_rho_negative "recombination rate cannot be negative"
                "recombination rate cannot be negative" rho tr Hneg)
      as [msg Hmsg].
    congruence. }
  { rewrite bind_run.
    destruct sr as [|f|fs]; simpl in Hsr; [done|by eexists|].
    destruct (negb (bool_decide (length fs = 2%nat))); [by eexists|].
    destruct (check_selfing_out_of_range fs tr Hsr) as [msg Hmsg].
    rewrite (bind_raise _ _ _ _ _ Hmsg). by eexists. }
  { apply Exists_cons in Hnus as [?|Hnus]; [done|].
    apply Exists_cons in Hnus as [?|Hnus]; [done|].
    by apply Exists_nil in Hnus. }
Qed.

(** C7.  [steady_state] called with theta <= 0, a negative recombination
    rate or a selfing rate outside [0, 1], and [steady_state_two_pop] called
    with one of these, a non-positive relative size or a non-positive
    m[0][1] or m[1][0], raise ValueError, and the log of builder and solver
    calls is the one the call started with: nothing was built or solved. *)
Theorem invalid_parameters_rejected :
  (∀ theta rho sr tr,
      theta ≤ 0 ∨ rho_negative rho ∨ selfing_out_of_range sr →
      ∃ msg, steady_state theta rho sr tr = (Raise (ValueError msg), tr))
  ∧ (∀ nus m rho theta sr m01 m10 tr,
      mig_entry m 0 1 = Some m01 → mig_entry m 1 0 = Some m10 →
      theta ≤ 0 ∨ rho_negative rho ∨ selfing_out_of_range sr
        ∨ Exists (λ nu, nu ≤ 0) nus ∨ m01 ≤ 0 ∨ m10 ≤ 0 →
      ∃ msg, steady_state_two_pop nus m rho theta sr tr
             = (Raise (ValueError msg), tr)).
Proof.
  split.
  - intros theta rho sr tr. apply steady_state_rejects.
  - intros nus m rho theta sr m01 m10 tr. apply steady_state_two_pop_rejects.
Qed.

(** ** The code before the loop *)

Lemma recombination_list_run n rs fr sf tr :
  recombination_list n rs fr sf tr
  = (Ok ((λ r, recombination_ld n r fr sf) <$> rs), tr ++ (Call_recombination n <$> rs)).
Proof.
  revert tr. induction rs as [|r rs IH]; intros tr; simpl.
  - by rewrite app_nil_r.
  - unfold tell. rewrite !bind_run, IH. simpl. by rewrite <-app_assoc.
Qed.

Lemma prologue_log Y p tr n h0 :
  resolve_num_pops p = Some n → last Y = Some h0 →
  prologue Y p tr
  = (Ok (env_of p n, init_locals Y p h0), tr ++ prologue_calls p n).
Proof.
  intros Hn Hh. unfold prologue, resolve_num_pops in *.
  assert (match p_num_pops p with
          | Some n => mret n
          | None => match p_nu p with
                    | NuFixed sizes => mret (length sizes)
                    | NuCallable _ => raise TypeError
                    end
          end tr = (Ok n, tr)) as Hnp.
  { destruct (p_num_pops p); [by simplify_eq|].
    destruct (p_nu p); by simplify_eq. }
  rewrite (bind_ok _ _ _ _ _ Hnp), Hh.
  rewrite bind_run. simpl.
  unfold mutation, migration, recombination, env_of, init_locals,
    has_migration, prologue_calls.
  destruct (p_rho p) as [|r|rs], (p_m p) as [m|]; simpl;
    try destruct (bool_decide (1 < n)%nat && any_nonzero m); simpl;
    repeat (rewrite ?bind_run, ?recombination_list_run; simpl);
    rewrite <-?app_assoc; simpl; rewrite ?app_nil_r; done.
Qed.


Lemma prologue_no_num_pops Y p tr :
  resolve_num_pops p = None → prologue Y p tr = (Raise TypeError, tr).
Proof.
  unfold prologue, resolve_num_pops.
  destruct (p_num_pops p); [done|]. by destruct (p_nu p).
Qed.

Lemma prologue_empty p tr :
  is_Some (resolve_num_pops p) → prologue [] p tr = (Raise IndexError, tr).
Proof.
  unfold prologue, resolve_num_pops. intros [n Hn].
  destruct (p_num_pops p); [done|]. by destruct (p_nu p).
Qed.

(** ** List comprehensions that index a second list *)

Lemma for_range_index {A B C} (f : nat → A → M B) (g : C → A → B)
    (cs : list call) (As : list C) :
  (∀ i a tr, f i a tr = match As !! i with
                        | Some c => (Ok (g c a), tr ++ cs)
                        | None => (Raise IndexError, tr)
                        end) →
  ∀ l i0 tr, (length l ≤ length As - i0)%nat →
    for_range f i0 l tr
    = (Ok (zip_with g (drop i0 As) l), tr ++ mjoin (replicate (length l) cs)).
Proof.
  intros Hf l. induction l as [|a l IH]; intros i0 tr Hlen; simpl.
  - by rewrite zip_with_nil_r, app_nil_r.
  - simpl in Hlen.
    destruct (As !! i0) as [c|] eqn:Hc;
      [|apply lookup_ge_None in Hc; lia].
    rewrite bind_run, Hf, Hc, bind_run, IH by lia. simpl.
    rewrite (drop_S _ _ _ Hc). simpl. by rewrite <-app_assoc.
Qed.

Lemma for_range_index_silent {A B C} (f : nat → A → M B) (g : C → A → B)
    (As : list C) :
  (∀ i a tr, f i a tr = match As !! i with
                        | Some c => (Ok (g c a), tr)
                        | None => (Raise IndexError, tr)
                        end) →
  ∀ l tr, (length l ≤ length As)%nat →
    for_range f 0 l tr = (Ok (zip_with g As l), tr).
Proof.
  intros Hf l tr Hlen.
  rewrite (for_range_index f g [] As) by (rewrite ?Nat.sub_0_r; try done;
    intros i a tr0; rewrite Hf, ?app_nil_r; done).
  rewrite drop_0. f_equal.
  assert (∀ k, mjoin (replicate k ([] : list call)) = []) as ->
    by (induction k; simpl; done).
  apply app_nil_r.
Qed.

Lemma for_range_index_short {A B C} (f : nat → A → M B) (g : C → A → B)
    (As : list C) :
  (∀ i a tr, f i a tr = match As !! i with
                        | Some c => (Ok (g c a), tr)
                        | None => (Raise IndexError, tr)
                        end) →
  ∀ l i0 tr, (length As - i0 < length l)%nat →
    for_range f i0 l tr = (Raise IndexError, tr).
Proof.
  intros Hf l. induction l as [|a l IH]; intros i0 tr Hlen; simpl in *; [lia|].
  rewrite bind_run, Hf. destruct (As !! i0) as [c|] eqn:Hc; [|done].
  rewrite bind_run, IH; [done|]. apply lookup_lt_Some in Hc. lia.
Qed.

Lemma zip_with_const_r {A B C} (g : A → C) (l : list A) (k : list B) :
  length l = length k → zip_with (λ a _, g a) l k = g <$> l.
Proof.
  revert k. induction l as [|a l IH]; intros [|b k] Hlen; simpl in *; try done.
  f_equal. apply IH. lia.
Qed.

(** ** Assembly *)

Lemma combine_run p n nus tr :
  combine p (env_of p n) nus tr
  = (Ok (op_h p n nus, ops_ld p n nus), tr ++ drift_calls p n nus).
Proof.
  unfold combine, drift, drift_calls, op_h, ops_ld, env_of. simpl.
  destruct (has_migration n (p_m p)) eqn:Hmig, (p_rho p) as [|r|rs] eqn:Hrho;
    simpl; unfold op_ld; rewrite ?Hmig; unfold tell;
    repeat (rewrite bind_run; simpl); try (by rewrite <-?app_assoc).
  - rewrite (for_range_index_silent _
      (λ Ri _, madd (madd (drift_ld n nus (p_frozen p))
                          (migration_ld n (default [] (p_m p)) (p_frozen p))) Ri)
      ((λ r, recombination_ld n r (p_frozen p) (p_selfing p)) <$> rs)).
    + simpl. rewrite zip_with_const_r by by rewrite length_fmap.
      by rewrite <-list_fmap_compose, <-app_assoc.
    + intros i a tr0. unfold index, mbind, M_bind. simpl.
      by destruct (_ !! i).
    + by rewrite length_fmap.
  - rewrite (for_range_index_silent _
      (λ Ri _, madd (drift_ld n nus (p_frozen p)) Ri)
      ((λ r, recombination_ld n r (p_frozen p) (p_selfing p)) <$> rs)).
    + simpl. rewrite zip_with_const_r by by rewrite length_fmap.
      by rewrite <-list_fmap_compose, <-app_assoc.
    + intros i a tr0. unfold index, mbind, M_bind. simpl.
      by destruct (_ !! i).
    + by rewrite length_fmap.
Qed.

Lemma mjoin_replicate_singleton {A} (a : A) k :
  mjoin (replicate k [a]) = replicate k a.
Proof. induction k as [|k IH]; simpl; [done|by rewrite IH]. Qed.

Lemma solvers_run p n s tr :
  solvers p (op_h p n (nus s)) (ops_ld p n (nus s)) s tr
  = (Ok (rebuilt p n s), tr ++ Call_inv :: factor_calls p).
Proof.
  unfold solvers, rebuilt, ops_ld, factor_calls, tell.
  destruct (p_rho p) as [|r|rs]; repeat (rewrite bind_run; simpl);
    [done|by rewrite <-app_assoc|].
  rewrite (for_range_index_silent _ (λ A _, half_fwd (dt s) A)
             (op_ld p n (nus s) <$> rs)).
  2:{ intros i a tr0. unfold index, mbind, M_bind. by destruct (_ !! i). }
  2:{ by rewrite length_fmap. }
  simpl. rewrite bind_run.
  rewrite (for_range_index _ (λ A _, factorized (half_bwd (dt s) A))
             [Call_factorized] (op_ld p n (nus s) <$> rs)).
  2:{ intros i a tr0. unfold index, mbind, M_bind, tell. by destruct (_ !! i). }
  2:{ rewrite length_fmap. lia. }
  rewrite drop_0, !zip_with_const_r by by rewrite length_fmap.
  rewrite <-!list_fmap_compose, mjoin_replicate_singleton, <-app_assoc.
  done.
Qed.

Lemma rebuild_run p n s tr :
  rebuild p (env_of p n) s tr
  = if recompute s
    then (Ok (rebuilt p n s), tr ++ assembly_calls p n (nus s))
    else (Ok s, tr).
Proof.
  unfold rebuild. destruct (recompute s); [|done].
  rewrite (bind_ok _ _ _ _ _ (combine_run p n (nus s) tr)).
  rewrite solvers_run. unfold assembly_calls. by rewrite <-app_assoc.
Qed.

Lemma rebuilt_built p n s : built p n (dt s) (nus s) (rebuilt p n s).
Proof. unfold built, rebuilt. by destruct (p_rho p). Qed.

(** ** The sub-steps on the locals *)

Lemma zip_with_fmap_swap {A B C D} (g : C → A → D) (f : B → C) (l : list B)
    (k : list A) :
  zip_with g (f <$> l) k = zip_with (λ b a, g (f b) a) l k.
Proof.
  revert k. induction l as [|b l IH]; intros [|a k]; simpl; try done.
  by rewrite IH.
Qed.

Lemma forward_run p n s tr :
  built p n (dt s) (nus s) s → ld_bound p s →
  forward p (env_of p n) s tr = (Ok (forwarded p n s), tr).
Proof.
  intros (H1 & H2 & Hld) Hb.
  unfold forward, forwarded, ld_bound, U_ld, env_of in *. simpl.
  destruct (p_rho p) as [|r|rs] eqn:Hrho; simpl.
  - rewrite bind_run. simpl. by rewrite H1.
  - destruct Hld as [Hl1 Hl2], Hb as [y0 Hy].
    rewrite Hl1, Hy. repeat (rewrite bind_run; simpl). by rewrite H1.
  - destruct Hld as [Hl1 Hl2], Hb as (l & Hl & Hlen).
    rewrite Hl. repeat (rewrite bind_run; simpl).
    rewrite (for_range_index_silent _
      (λ A yi, vadd (dot A yi) (vscale (dt s)
         (dot (mutation_ld n (p_theta p) (p_frozen p) (p_selfing p)) (h s))))
      ((λ r, half_fwd (dt s) (op_ld p n (nus s) r)) <$> rs)).
    + simpl. rewrite H1. simpl. by rewrite zip_with_fmap_swap.
    + intros i a tr0. rewrite Hl1. simpl.
      unfold index, mbind, M_bind, mret, M_ret, raise. simpl.
      by destruct (_ !! i).
    + by rewrite length_fmap.
Qed.



Lemma forward_too_many p n s tr rs l :
  p_rho p = RhoList rs → built p n (dt s) (nus s) s → ys s = Some l →
  (length rs < length l)%nat →
  forward p (env_of p n) s tr = (Raise IndexError, tr).
Proof.
  intros Hrho (_ & _ & Hld) Hys Hlen. unfold forward. rewrite Hrho in *.
  destruct Hld as [Hl1 _]. rewrite Hys. repeat (rewrite bind_run; simpl).
  rewrite (for_range_index_short _
    (λ A yi, vadd (dot A yi) (vscale (dt s)
       (dot (mutation_ld n (p_theta p) (p_frozen p) (p_selfing p)) (h s))))
    ((λ r, half_fwd (dt s) (op_ld p n (nus s) r)) <$> rs)); [done| |].
  - intros i a tr0. rewrite Hl1. unfold env_of. simpl. rewrite Hrho. simpl.
    unfold index, mbind, M_bind, mret, M_ret, raise. simpl.
    by destruct (_ !! i).
  - rewrite length_fmap. lia.
Qed.

Lemma backward_run p n s tr :
  built p n (dt s) (nus s) s → ld_bound p s →
  backward p s tr = (Ok (backwarded p n s), tr).
Proof.
  intros (H1 & H2 & Hld) Hb.
  unfold backward, backwarded, ld_bound in *.
  destruct (p_rho p) as [|r|rs] eqn:Hrho; simpl.
  - rewrite bind_run. simpl. by rewrite H2.
  - destruct Hld as [Hl1 Hl2], Hb as [y0 Hy].
    rewrite Hl2, Hy. repeat (rewrite bind_run; simpl). by rewrite H2.
  - destruct Hld as [Hl1 Hl2], Hb as (l & Hl & Hlen).
    rewrite Hl. repeat (rewrite bind_run; simpl).
    rewrite (for_range_index_silent _ (λ (F : vec → vec) yi, F yi)
      ((λ r, factorized (half_bwd (dt s) (op_ld p n (nus s) r))) <$> rs)).
    + simpl. rewrite H2. simpl. by rewrite zip_with_fmap_swap.
    + intros i a tr0. rewrite Hl2. simpl.
      unfold index, mbind, M_bind, mret, M_ret, raise. simpl.
      by destruct (_ !! i).
    + by rewrite length_fmap.
Qed.

Lemma forwarded_built p n d sizes s :
  built p n d sizes s → built p n d sizes (forwarded p n s).
Proof.
  unfold built, forwarded.
  destruct (p_rho p); [done|by destruct (y s)|by destruct (ys s)].
Qed.

Lemma backwarded_built p n d sizes s :
  built p n d sizes s → built p n d sizes (backwarded p n s).
Proof.
  unfold built, backwarded.
  destruct (p_rho p); [done|by destruct (y s)|by destruct (ys s)].
Qed.

Lemma forwarded_frame p n s :
  dt (forwarded p n s) = dt s ∧ nus (forwarded p n s) = nus s
  ∧ elapsed_t (forwarded p n s) = elapsed_t s
  ∧ dt_last (forwarded p n s) = dt_last s
  ∧ nus_last (forwarded p n s) = nus_last s.
Proof.
  unfold forwarded.
  destruct (p_rho p); [done|by destruct (y s)|by destruct (ys s)].
Qed.

Lemma backwarded_frame p n s :
  dt (backwarded p n s) = dt s ∧ nus (backwarded p n s) = nus s
  ∧ elapsed_t (backwarded p n s) = elapsed_t s
  ∧ dt_last (backwarded p n s) = dt_last s
  ∧ nus_last (backwarded p n s) = nus_last s.
Proof.
  unfold backwarded.
  destruct (p_rho p); [done|by destruct (y s)|by destruct (ys s)].
Qed.

Lemma forwarded_bound p n s : ld_bound p s → ld_bound p (forwarded p n s).
Proof.
  unfold ld_bound, forwarded. destruct (p_rho p) as [|r|rs]; [done| |].
  - by intros [y0 ->].
  - intros (l & -> & Hlen). simpl. eexists. split; [done|].
    rewrite length_zip_with. lia.
Qed.

Lemma backwarded_bound p n s : ld_bound p s → ld_bound p (backwarded p n s).
Proof.
  unfold ld_bound, backwarded. destruct (p_rho p) as [|r|rs]; [done| |].
  - by intros [y0 ->].
  - intros (l & -> & Hlen). simpl. eexists. split; [done|].
    rewrite length_zip_with. lia.
Qed.

(** ** One pass through the loop body *)

Lemma assembled_built p n s :
  elapsed_t s = 0 ∨ built p n (dt_last s) (nus_last s) s →
  built p n (dt (assembled p n s)) (nus (assembled p n s)) (assembled p n s).
Proof.
  intros Hinv. unfold assembled.
  destruct (recompute (entered p s)) eqn:Hre.
  - pose proof (rebuilt_built p n (entered p s)) as Hb.
    unfold rebuilt in *. by destruct (p_rho p).
  - unfold recompute in Hre.
    apply orb_false_elim in Hre as [Hre Ht].
    apply orb_false_elim in Hre as [Hdt Hnus].
    apply negb_false_iff, bool_decide_eq_true_1 in Hdt, Hnus.
    apply bool_decide_eq_false_1 in Ht.
    destruct Hinv as [?|Hb]; [done|].
    rewrite Hdt, Hnus. exact Hb.
Qed.

Lemma assembled_frame p n s :
  h (assembled p n s) = h s ∧ y (assembled p n s) = y s
  ∧ ys (assembled p n s) = ys s
  ∧ dt (assembled p n s) = clip p s
  ∧ nus (assembled p n s) = sizes_at p s (clip p s)
  ∧ elapsed_t (assembled p n s) = elapsed_t s
  ∧ dt_last (assembled p n s) = dt_last s
  ∧ nus_last (assembled p n s) = nus_last s.
Proof.
  unfold assembled, rebuilt.
  destruct (recompute (entered p s)), (p_rho p); done.
Qed.

Lemma step_run p n s tr :
  loop_inv p n s →
  step p (env_of p n) s tr = (Ok (stepped p n s), tr ++ step_calls p n s).
Proof.
  intros [Hb Hinv]. unfold step.
  fold (entered p s).
  rewrite bind_run, rebuild_run.
  pose proof (assembled_built p n s Hinv) as Hbuilt.
  pose proof (assembled_frame p n s) as (Hh & Hy & Hys & _).
  assert (ld_bound p (assembled p n s)) as Hb'.
  { unfold ld_bound in *. rewrite Hy, Hys. exact Hb. }
  assert (∀ tr0, backward p (forwarded p n (assembled p n s)) tr0
            = (Ok (backwarded p n (forwarded p n (assembled p n s))), tr0))
    as Hbw.
  { intros tr0. apply backward_run; [|by apply forwarded_bound].
    destruct (forwarded_frame p n (assembled p n s)) as (-> & -> & _).
    by apply forwarded_built. }
  unfold stepped, step_calls. unfold assembled in *.
  destruct (recompute (entered p s)).
  - rewrite (bind_ok _ _ _ _ _ (forward_run _ _ _ _ Hbuilt Hb')).
    by rewrite (bind_ok _ _ _ _ _ (Hbw _)).
  - rewrite (bind_ok _ _ _ _ _ (forward_run _ _ _ _ Hbuilt Hb')).
    rewrite (bind_ok _ _ _ _ _ (Hbw _)). by rewrite app_nil_r.
Qed.

Lemma stepped_frame p n s :
  dt (stepped p n s) = clip p s
  ∧ nus (stepped p n s) = sizes_at p s (clip p s)
  ∧ elapsed_t (stepped p n s) = elapsed_t s + clip p s
  ∧ dt_last (stepped p n s) = clip p s
  ∧ nus_last (stepped p n s) = sizes_at p s (clip p s).
Proof.
  unfold stepped.
  destruct (backwarded_frame p n (forwarded p n (assembled p n s)))
    as (Hd & Hn & He & _).
  destruct (forwarded_frame p n (assembled p n s)) as (Hd' & Hn' & He' & _).
  destruct (assembled_frame p n s) as (_ & _ & _ & Hd'' & Hn'' & He'' & _).
  unfold advance. cbn [dt nus elapsed_t dt_last nus_last].
  rewrite Hd, Hn, He, Hd', Hn', He', Hd'', Hn'', He''. done.
Qed.

Lemma stepped_built p n s :
  elapsed_t s = 0 ∨ built p n (dt_last s) (nus_last s) s →
  built p n (clip p s) (sizes_at p s (clip p s)) (stepped p n s).
Proof.
  intros Hinv. apply assembled_built in Hinv.
  destruct (assembled_frame p n s) as (_ & _ & _ & Hd & Hn & _).
  rewrite Hd, Hn in Hinv.
  apply (forwarded_built p n), (backwarded_built p n) in Hinv.
  unfold stepped, built in *. exact Hinv.
Qed.

Lemma stepped_inv p n s : loop_inv p n s → loop_inv p n (stepped p n s).
Proof.
  intros [Hb Hinv]. split.
  - destruct (assembled_frame p n s) as (_ & Hy & Hys & _).
    assert (ld_bound p (assembled p n s)) as Hb'.
    { unfold ld_bound in *. by rewrite Hy, Hys. }
    apply (forwarded_bound p n), (backwarded_bound p n) in Hb'.
    unfold stepped, ld_bound in *. exact Hb'.
  - right. destruct (stepped_frame p n s) as (_ & _ & _ & -> & ->).
    by apply stepped_built.
Qed.

(** ** The states of a run *)

Lemma reached_inv p n s0 k s :
  loop_inv p n s0 → reached p n s0 k s → loop_inv p n s.
Proof.
  intros H0. induction 1 as [|k s s' tr tr' _ IH _ Hstep]; [done|].
  rewrite step_run in Hstep by done. injection Hstep as <- _.
  by apply stepped_inv.
Qed.

Lemma reached_step p n s0 k s s' tr tr' :
  loop_inv p n s0 → reached p n s0 k s →
  step p (env_of p n) s tr = (Ok s', tr') →
  s' = stepped p n s ∧ tr' = tr ++ step_calls p n s.
Proof.
  intros H0 Hr Hstep.
  rewrite step_run in Hstep by by eapply reached_inv.
  by injection Hstep as <- <-.
Qed.

(** Step sizes stay positive and time moves forward. *)
Lemma clip_pos p s : elapsed_t s < p_T p → 0 < dt s → 0 < clip p s.
Proof. intros Ht Hd. unfold clip. case_bool_decide; [qc_lra|done]. Qed.

Lemma clip_le p s : elapsed_t s < p_T p → elapsed_t s + clip p s ≤ p_T p.
Proof. intros Ht. unfold clip. case_bool_decide; qc_lra. Qed.

Lemma reached_time p n s0 k s :
  loop_inv p n s0 → elapsed_t s0 = 0 → 0 < dt s0 → reached p n s0 k s →
  0 < dt s ∧ dt s ≤ dt s0 ∧ (k = 0%nat → elapsed_t s = 0)
  ∧ (k ≠ 0%nat → 0 < elapsed_t s ∧ elapsed_t s ≤ p_T p).
Proof.
  intros H0 He0 Hd0 Hr.
  induction Hr as [|k s s' tr tr' Hr IH Ht Hstep].
  - split_and!; [done|qc_lra|done|done].
  - destruct IH as (Hd & Hle & Hz & Hnz).
    destruct (reached_step _ _ _ _ _ _ _ _ H0 Hr Hstep) as [-> _].
    destruct (stepped_frame p n s) as (-> & _ & -> & _).
    pose proof (clip_pos p s Ht Hd) as Hc.
    pose proof (clip_le p s Ht) as Hc'.
    assert (0 ≤ elapsed_t s) as Hnn.
    { destruct k; [rewrite Hz by done; qc_lra|].
      destruct Hnz as [? _]; [done|qc_lra]. }
    split_and!; [done| |done|intros _; split; [qc_lra|done]].
    unfold clip. case_bool_decide; qc_lra.
Qed.




(** ** The loop *)

Lemma while_exit fuel p e s tr :
  ¬ elapsed_t s < p_T p → while (S fuel) p e s tr = (Ok s, tr).
Proof. intros Ht. simpl. by rewrite bool_decide_eq_false_2. Qed.

Lemma while_step fuel p n s tr :
  loop_inv p n s → elapsed_t s < p_T p →
  while (S fuel) p (env_of p n) s tr
  = while fuel p (env_of p n) (stepped p n s) (tr ++ step_calls p n s).
Proof.
  intros Hinv Ht. simpl. rewrite bool_decide_eq_true_2 by done.
  by rewrite (bind_ok _ _ _ _ _ (step_run p n s tr Hinv)).
Qed.

Lemma ntimes_nonneg k d : 0 < d → 0 ≤ ntimes k d.
Proof.
  intros Hd. induction k as [|k IH]; simpl; [done|]. qc_lra.
Qed.

Lemma reached_stepped p n s0 k s :
  loop_inv p n s0 → reached p n s0 k s → elapsed_t s < p_T p →
  reached p n s0 (S k) (stepped p n s).
Proof.
  intros H0 Hr Ht. eapply (reached_S _ _ _ _ _ _ []); [done..|].
  apply step_run. by eapply reached_inv.
Qed.


Lemma init_inv Y p n h0 :
  ld_bound p (init_locals Y p h0) → loop_inv p n (init_locals Y p h0).
Proof. intros Hb. split; [done|by left]. Qed.



(** ** Assembly and reuse of the operators *)

Lemma forwarded_solvers p n s : solvers_of (forwarded p n s) = solvers_of s.
Proof.
  unfold forwarded, solvers_of.
  destruct (p_rho p); [done|by destruct (y s)|by destruct (ys s)].
Qed.

Lemma backwarded_solvers p n s : solvers_of (backwarded p n s) = solvers_of s.
Proof.
  unfold backwarded, solvers_of.
  destruct (p_rho p); [done|by destruct (y s)|by destruct (ys s)].
Qed.

Lemma stepped_solvers p n s :
  solvers_of (stepped p n s) = solvers_of (assembled p n s).
Proof.
  unfold stepped.
  rewrite <-(forwarded_solvers p n (assembled p n s)).
  by rewrite <-(backwarded_solvers p n (forwarded p n (assembled p n s))).
Qed.

Lemma reached_first p n s0 k s :
  loop_inv p n s0 → elapsed_t s0 = 0 → 0 < dt s0 → reached p n s0 k s →
  bool_decide (elapsed_t s = 0) = bool_decide (k = 0%nat).
Proof.
  intros H0 He0 Hd0 Hr.
  destruct (reached_time _ _ _ _ _ H0 He0 Hd0 Hr) as (_ & _ & Hz & Hnz).
  destruct k.
  - rewrite Hz by done. by rewrite !bool_decide_eq_true_2.
  - destruct Hnz as [Hpos _]; [done|].
    rewrite !bool_decide_eq_false_2; [done..|].
    intros He. rewrite He in Hpos. by apply Qclt_not_eq in Hpos.
Qed.

(** C3.  A pass assembles the operators, the half-step matrices and the
    factorizations exactly when [elapsed_t] is 0, or its step size differs
    from [dt_last], or its sizes differ from [nus_last]; these two hold the
    step size and the sizes of the pass before, and for dt > 0 [elapsed_t]
    is 0 in the first pass of the call and in no other.  A pass that does
    not assemble calls no builder and no solver and leaves the matrices and
    factorizations it found.  Either way the matrices and factorizations a
    pass works with are those for its own step size and sizes. *)
Theorem operators_rebuilt_on_change Y p n h0 k s :
  let s0 := init_locals Y p h0 in
  ld_bound p s0 → reached p n s0 k s → elapsed_t s < p_T p →
  let d := clip p s in
  let sizes := sizes_at p s d in
  let changed := bool_decide (elapsed_t s = 0)
                 || negb (bool_decide (d = dt_last s))
                 || negb (bool_decide (sizes = nus_last s)) in
  (0 < p_dt p → (elapsed_t s = 0 ↔ k = 0%nat))
  ∧ ∀ tr, ∃ s',
      step p (env_of p n) s tr
      = (Ok s', tr ++ if changed then assembly_calls p n sizes else [])
      ∧ (changed = false → solvers_of s' = solvers_of s)
      ∧ built p n d sizes s'
      ∧ dt_last s' = d ∧ nus_last s' = sizes.
Proof.
  intros s0 Hb0 Hr Ht d sizes changed.
  pose proof (init_inv Y p n h0 Hb0) as H0. fold s0 in H0.
  pose proof (reached_inv _ _ _ _ _ H0 Hr) as Hinv.
  split.
  { intros Hdt. pose proof (reached_first p n s0 k s H0 eq_refl Hdt Hr) as Hf.
    split; intros Hz.
    - rewrite (bool_decide_eq_true_2 _ Hz) in Hf.
      symmetry in Hf. by apply bool_decide_eq_true_1 in Hf.
    - rewrite (bool_decide_eq_true_2 (k = 0%nat) Hz) in Hf.
      by apply bool_decide_eq_true_1 in Hf. }
  intros tr.
  assert (recompute (entered p s) = changed) as Hre.
  { unfold recompute, changed, entered.
    cbn [dt dt_last nus nus_last elapsed_t set_step]. fold d. fold sizes.
    destruct (bool_decide (elapsed_t s = 0)), (bool_decide (d = dt_last s)),
      (bool_decide (sizes = nus_last s)); done. }
  exists (stepped p n s). split_and!.
  - rewrite step_run by done. unfold step_calls. by rewrite Hre.
  - intros Hch. rewrite stepped_solvers. unfold assembled.
    by rewrite Hre, Hch.
  - apply stepped_built. by destruct Hinv.
  - by destruct (stepped_frame p n s) as (_ & _ & _ & -> & _).
  - by destruct (stepped_frame p n s) as (_ & _ & _ & _ & ->).
Qed.

(** ** The sizes of a pass *)

Lemma reached_fixed_sizes p n s0 k s sizes :
  loop_inv p n s0 → p_nu p = NuFixed sizes → nus s0 = sizes →
  reached p n s0 k s → nus s = sizes.
Proof.
  intros H0 Hnu Hs0. induction 1 as [|k s s' tr tr' Hr IH _ Hstep]; [done|].
  destruct (reached_step _ _ _ _ _ _ _ _ H0 Hr Hstep) as [-> _].
  destruct (stepped_frame p n s) as (_ & -> & _).
  unfold sizes_at. by rewrite Hnu.
Qed.

(** C9.  In every pass, the vector [nus] the operators are assembled for is
    [nu(elapsed_t + dt / 2)], with dt the step size of the pass after
    clipping, when [nu] is a function, and the fixed vector when [nu] is one:
    the pass either calls no builder or starts its assembly by calling the
    drift builders on that vector, and the matrices and factorizations it
    works with are those for that vector. *)
Theorem sizes_at_step_midpoint Y p n h0 k s :
  let s0 := init_locals Y p h0 in
  ld_bound p s0 → reached p n s0 k s → elapsed_t s < p_T p →
  let d := clip p s in
  let sizes := match p_nu p with
               | NuCallable f => f (elapsed_t s + d / 2)
               | NuFixed fixed => fixed
               end in
  ∀ tr, ∃ s' calls,
    step p (env_of p n) s tr = (Ok s', tr ++ calls)
    ∧ (calls = [] ∨ calls = drift_calls p n sizes ++ Call_inv :: factor_calls p)
    ∧ nus s' = sizes
    ∧ built p n d sizes s'.
Proof.
  intros s0 Hb0 Hr Ht d sizes tr.
  pose proof (init_inv Y p n h0 Hb0) as H0. fold s0 in H0.
  pose proof (reached_inv _ _ _ _ _ H0 Hr) as Hinv.
  assert (sizes_at p s d = sizes) as Hsizes.
  { unfold sizes_at, sizes. destruct (p_nu p) as [fixed|f] eqn:Hnu; [|done].
    apply (reached_fixed_sizes p n s0 k s fixed); [done..| |done].
    unfold s0, init_locals. simpl. by rewrite Hnu. }
  exists (stepped p n s), (step_calls p n s). split_and!.
  - by apply step_run.
  - unfold step_calls, entered. cbn [nus set_step]. fold d. rewrite Hsizes.
    destruct (recompute _); [by right|by left].
  - destruct (stepped_frame p n s) as (_ & -> & _). exact Hsizes.
  - rewrite <-Hsizes. apply stepped_built. by destruct Hinv.
Qed.

(** ** The whole call *)

Lemma removelast_snoc_last {A} (l : list A) (a : A) :
  last l = Some a → removelast l ++ [a] = l.
Proof.
  induction l as [|b [|c l] IH]; intros Hl; try done.
  - by injection Hl as ->.
  - change (removelast (b :: c :: l)) with (b :: removelast (c :: l)).
    simpl. f_equal. by apply IH.
Qed.


Lemma epilogue_init Y p h0 tr :
  last Y = Some h0 → (length Y = 2%nat ↔ isscalar (p_rho p) = true) →
  epilogue Y p (init_locals Y p h0) tr = (Ok Y, tr).
Proof.
  intros Hh Hshape. unfold epilogue, init_locals. cbn [h y ys].
  rewrite (removelast_snoc_last Y h0 Hh).
  destruct (isscalar (p_rho p)).
  - rewrite bool_decide_eq_true_2 by by apply Hshape.
    destruct Y as [|y0 Y]; [done|]. done.
  - rewrite bool_decide_eq_false_2 by (intros Hl; by apply Hshape in Hl).
    unfold read_local, mbind, M_bind, mret, M_ret.
    by rewrite (removelast_snoc_last Y h0 Hh).
Qed.


(** ** A state whose length does not fit [rho] *)



Lemma stepped_no_rho p n s :
  p_rho p = RhoNone → ys (stepped p n s) = ys s.
Proof.
  intros Hrho. unfold stepped, backwarded, forwarded. rewrite Hrho.
  cbn [ys advance set_h].
  by destruct (assembled_frame p n s) as (_ & _ & -> & _).
Qed.

Lemma run_steps_no_rho p n k s :
  p_rho p = RhoNone → ys (run_steps p n k s) = ys s.
Proof.
  intros Hrho. revert s. induction k as [|k IH]; intros s; simpl; [done|].
  by rewrite IH, stepped_no_rho.
Qed.



(** ** No parameter check in [integrate] *)
















(** ** The loop as a function *)

Lemma while_pure fuel p n s tr :
  loop_inv p n s →
  while fuel p (env_of p n) s tr
  = (match run_while fuel p n s with Some s' => Ok s' | None => OutOfFuel end,
     tr ++ run_calls fuel p n s).
Proof.
  revert s tr. induction fuel as [|fuel IH]; intros s tr Hinv.
  - simpl. by rewrite app_nil_r.
  - destruct (decide (elapsed_t s < p_T p)) as [Ht|Ht].
    + rewrite while_step by done. rewrite IH by by apply stepped_inv.
      simpl. rewrite bool_decide_eq_true_2 by done. by rewrite app_assoc.
    + rewrite while_exit by done. simpl.
      rewrite bool_decide_eq_false_2 by done. by rewrite app_nil_r.
Qed.

Lemma run_while_steps fuel p n s s' :
  run_while fuel p n s = Some s' →
  ∃ k, (k < fuel)%nat ∧ s' = run_steps p n k s ∧ ¬ elapsed_t s' < p_T p
    ∧ ∀ j, (j < k)%nat → elapsed_t (run_steps p n j s) < p_T p.
Proof.
  revert s. induction fuel as [|fuel IH]; intros s Hr; [done|].
  simpl in Hr. case_bool_decide as Ht.
  - destruct (IH _ Hr) as (k & Hk & -> & Hend & Hlt).
    exists (S k). split_and!; [lia|done|done|].
    intros [|j] Hj; [done|]. simpl. apply Hlt. lia.
  - injection Hr as <-. exists 0%nat. split_and!; [lia|done|done|].
    intros j Hj. lia.
Qed.

Lemma run_steps_while p n k : ∀ s fuel,
  (k < fuel)%nat → ¬ elapsed_t (run_steps p n k s) < p_T p →
  (∀ j, (j < k)%nat → elapsed_t (run_steps p n j s) < p_T p) →
  run_while fuel p n s = Some (run_steps p n k s).
Proof.
  induction k as [|k IH]; intros s [|fuel] Hf Hend Hlt; try lia.
  - simpl in *. by rewrite bool_decide_eq_false_2.
  - simpl. rewrite bool_decide_eq_true_2 by (apply (Hlt 0%nat); lia).
    apply IH; [lia|done|]. intros j Hj. apply (Hlt (S j)). lia.
Qed.

Lemma run_steps_inv p n k s : loop_inv p n s → loop_inv p n (run_steps p n k s).
Proof.
  revert s. induction k as [|k IH]; intros s Hinv; [done|].
  simpl. by apply IH, stepped_inv.
Qed.

Lemma run_steps_add p n j k s :
  run_steps p n (j + k) s = run_steps p n k (run_steps p n j s).
Proof. revert s. induction j as [|j IH]; intros s; [done|]. simpl. apply IH. Qed.

(** The vectors a pass leaves, from those it found. *)
Lemma stepped_vectors p n s :
  let d := clip p s in
  let sizes := sizes_at p s d in
  h (stepped p n s) = pass_h p n d sizes (h s)
  ∧ y (stepped p n s)
    = match p_rho p with
      | RhoScalar r => pass_ld p n d sizes r (h s) <$> y s
      | _ => y s
      end
  ∧ ys (stepped p n s)
    = match p_rho p with
      | RhoList rs => (λ l, zip_with (λ r yi, pass_ld p n d sizes r (h s) yi) rs l) <$> ys s
      | _ => ys s
      end.
Proof.
  intros d sizes.
  destruct (assembled_frame p n s) as (Hh & Hy & Hys & Hd & Hn & _).
  unfold stepped, backwarded, forwarded, pass_h, pass_ld.
  rewrite Hh, Hy, Hys, Hd, Hn. fold d sizes.
  destruct (p_rho p) as [|r|rs].
  - cbn. rewrite Hy, Hys, Hd, Hn. done.
  - destruct (y s) as [y0|]; cbn; rewrite ?Hy, ?Hys, ?Hd, ?Hn; done.
  - destruct (ys s) as [l|]; cbn; rewrite ?Hy, ?Hys, ?Hd, ?Hn; [|done].
    split_and!; [done..|]. f_equal. fold d sizes.
    generalize (ld_forward d) (ld_backward d). intros f g.
    clear Hh Hy Hys Hd Hn. revert l. induction rs as [|r rs IH]; intros [|yi l]; simpl; [done..|].
    by rewrite IH.
Qed.

Lemma shaped_init Y p h0 : shaped Y p → vectors_bound p (init_locals Y p h0).
Proof.
  unfold shaped, vectors_bound, ld_bound, init_locals.
  destruct (p_rho p) as [|r|rs]; cbn [y ys].
  - intros HY. split; [done|]. intros _. by rewrite bool_decide_eq_false_2.
  - intros HY. split; [|done]. rewrite bool_decide_eq_true_2 by done.
    by destruct Y.
  - intros [HY Hle]. split; [|done]. rewrite bool_decide_eq_false_2 by done.
    eexists. split; [done|].
    destruct Y as [|v Y] using rev_ind; [simpl; lia|].
    rewrite removelast_last. rewrite length_app in Hle. simpl in Hle. lia.
Qed.

Lemma stepped_vectors_bound p n s :
  vectors_bound p s → vectors_bound p (stepped p n s).
Proof.
  destruct (stepped_vectors p n s) as (_ & Hy & Hys).
  unfold vectors_bound, ld_bound. intros [Hb Hn]. rewrite Hy, Hys.
  destruct (p_rho p) as [|r|rs].
  - split; [done|]. done.
  - split; [|done]. destruct Hb as [y0 ->]. by eexists.
  - split; [|done]. destruct Hb as (l & -> & Hl). eexists. split; [done|].
    rewrite length_zip_with. lia.
Qed.

Lemma run_steps_vectors_bound p n k s :
  vectors_bound p s → vectors_bound p (run_steps p n k s).
Proof.
  revert s. induction k as [|k IH]; intros s Hb; [done|].
  simpl. by apply IH, stepped_vectors_bound.
Qed.

Lemma epilogue_run Y p s tr :
  shaped Y p → vectors_bound p s →
  epilogue Y p s tr = (Ok (result_of p s), tr).
Proof.
  unfold shaped, vectors_bound, ld_bound, epilogue, result_of.
  destruct (p_rho p) as [|r|rs]; simpl.
  - intros _ [_ Hys]. destruct (Hys eq_refl) as [l ->]. done.
  - intros HY [[y0 ->] _]. by destruct Y as [|a [|b [|c Y]]].
  - intros _ [(l & -> & _) _]. done.
Qed.

(** A call whose vectors fit [rho], as a function of its arguments. *)
Lemma integrate_shaped fuel Y p tr n h0 :
  resolve_num_pops p = Some n → last Y = Some h0 → shaped Y p →
  integrate fuel Y p tr
  = (match run_while fuel p n (init_locals Y p h0) with
     | Some s => Ok (result_of p s)
     | None => OutOfFuel
     end,
     tr ++ prologue_calls p n ++ run_calls fuel p n (init_locals Y p h0)).
Proof.
  intros Hn Hh HY. unfold integrate.
  rewrite bind_run, (prologue_log Y p tr n h0 Hn Hh).
  pose proof (shaped_init Y p h0 HY) as Hb.
  rewrite bind_run, while_pure by (apply init_inv, Hb).
  rewrite <- app_assoc.
  destruct (run_while fuel p n (init_locals Y p h0)) as [s|] eqn:Hr; [|done].
  apply run_while_steps in Hr as (k & _ & -> & _).
  apply epilogue_run; [done|]. by apply run_steps_vectors_bound.
Qed.

(** ** The passes of a run *)

Lemma ntimes_le j k d : 0 < d → (j ≤ k)%nat → ntimes j d ≤ ntimes k d.
Proof.
  intros Hd Hjk. induction Hjk as [|k Hjk IH].
  - qc_lra.
  - simpl. qc_lra.
Qed.

Lemma passes_exist (T d : Qc) :
  0 < T → 0 < d → ∃ k, ntimes k d < T ∧ T ≤ ntimes (S k) d.
Proof.
  intros HT Hd. destruct (ntimes_archimedean T d Hd) as [k0 Hk0].
  induction k0 as [|k0 IH].
  - simpl in Hk0. qc_lra.
  - destruct (decide (T ≤ ntimes k0 d)) as [Hle|Hlt]; [by apply IH|].
    exists k0. split; [|done]. simpl in *. qc_lra.
Qed.

(** While the remaining time covers them, the passes keep the step size. *)
Lemma run_steps_uniform p n j : ∀ s,
  0 < dt s → ntimes j (dt s) ≤ p_T p - elapsed_t s →
  dt (run_steps p n j s) = dt s
  ∧ elapsed_t (run_steps p n j s) = elapsed_t s + ntimes j (dt s).
Proof.
  induction j as [|j IH]; intros s Hd Hle.
  - simpl. split; [done|]. qc_lra.
  - simpl in *. pose proof (ntimes_nonneg j (dt s) Hd) as Hj.
    destruct (stepped_frame p n s) as (Hdt & _ & He & _).
    assert (clip p s = dt s) as Hc.
    { unfold clip. rewrite bool_decide_eq_false_2; [done|]. qc_lra. }
    rewrite Hc in Hdt, He.
    destruct (IH (stepped p n s)) as [-> ->].
    + by rewrite Hdt.
    + rewrite Hdt, He. qc_lra.
    + rewrite Hdt, He. split; [done|]. qc_lra.
Qed.

Lemma run_steps_S p n k s :
  run_steps p n (S k) s = stepped p n (run_steps p n k s).
Proof. replace (S k) with (k + 1)%nat by lia. by rewrite run_steps_add. Qed.

(** The last pass takes what is left of [T]. *)
Lemma run_steps_last p n k s :
  0 < dt s → elapsed_t s = 0 →
  ntimes k (dt s) < p_T p → p_T p ≤ ntimes (S k) (dt s) →
  (∀ j, (j ≤ k)%nat →
     dt (run_steps p n j s) = dt s
     ∧ elapsed_t (run_steps p n j s) = ntimes j (dt s)
     ∧ elapsed_t (run_steps p n j s) < p_T p)
  ∧ dt (run_steps p n (S k) s) = p_T p - ntimes k (dt s)
  ∧ elapsed_t (run_steps p n (S k) s) = p_T p.
Proof.
  intros Hd He Hlt Hle.
  assert (∀ j, (j ≤ k)%nat →
     dt (run_steps p n j s) = dt s
     ∧ elapsed_t (run_steps p n j s) = ntimes j (dt s)
     ∧ elapsed_t (run_steps p n j s) < p_T p) as Hj.
  { intros j Hjk. pose proof (ntimes_le j k (dt s) Hd Hjk) as Hjk'.
    destruct (run_steps_uniform p n j s Hd) as [H1 H2].
    { rewrite He. qc_lra. }
    rewrite H1, H2, He. split_and!; [done|qc_lra|qc_lra]. }
  split; [done|]. rewrite run_steps_S.
  destruct (Hj k) as (H1 & H2 & H3); [lia|].
  destruct (stepped_frame p n (run_steps p n k s)) as (-> & _ & -> & _).
  unfold clip. rewrite H1, H2. simpl in Hle.
  case_bool_decide; split; qc_lra.
Qed.

Lemma run_while_passes p n k s fuel :
  0 < dt s → elapsed_t s = 0 →
  ntimes k (dt s) < p_T p → p_T p ≤ ntimes (S k) (dt s) → (S k < fuel)%nat →
  run_while fuel p n s = Some (run_steps p n (S k) s).
Proof.
  intros Hd He Hlt Hle Hf.
  destruct (run_steps_last p n k s Hd He Hlt Hle) as (Hj & _ & Hend).
  apply run_steps_while; [done|rewrite Hend; qc_lra|].
  intros j Hjk. apply Hj. lia.
Qed.

Lemma run_steps_reached p n s0 k :
  loop_inv p n s0 →
  (∀ j, (j < k)%nat → elapsed_t (run_steps p n j s0) < p_T p) →
  reached p n s0 k (run_steps p n k s0).
Proof.
  intros Hinv. induction k as [|k IH]; intros Hlt; [constructor|].
  rewrite run_steps_S. apply reached_stepped; [done| |].
  - apply IH. intros j Hj. apply Hlt. lia.
  - apply Hlt. lia.
Qed.

Lemma run_calls_passes p n k : ∀ s fuel,
  (k < fuel)%nat → ¬ elapsed_t (run_steps p n k s) < p_T p →
  (∀ j, (j < k)%nat → elapsed_t (run_steps p n j s) < p_T p) →
  run_calls fuel p n s
  = mjoin ((λ j, step_calls p n (run_steps p n j s)) <$> seq 0 k).
Proof.
  induction k as [|k IH]; intros s [|fuel] Hf Hend Hlt; try lia.
  - simpl in *. by rewrite bool_decide_eq_false_2.
  - simpl. rewrite bool_decide_eq_true_2 by (apply (Hlt 0%nat); lia).
    f_equal. rewrite <- fmap_S_seq, <- list_fmap_compose.
    apply IH; [lia|done|]. intros j Hj. apply (Hlt (S j)). lia.
Qed.

Lemma mjoin_fmap_nil {A} (f : nat → list A) a m :
  (∀ j, (a ≤ j < a + m)%nat → f j = []) → mjoin (f <$> seq a m) = [].
Proof.
  revert a. induction m as [|m IH]; intros a Hf; [done|].
  simpl. rewrite Hf by lia. simpl. apply IH. intros j Hj. apply Hf. lia.
Qed.

Lemma inversions_app tr1 tr2 :
  inversions (tr1 ++ tr2) = (inversions tr1 + inversions tr2)%nat.
Proof. unfold inversions. by rewrite filter_app, length_app. Qed.

Lemma inversions_assembly p n sizes : inversions (assembly_calls p n sizes) = 1%nat.
Proof.
  unfold assembly_calls, drift_calls, factor_calls, inversions.
  assert (∀ k, filter (λ c, c = Call_inv) (replicate k Call_factorized) = []) as Hrep.
  { induction k as [|k IH]; [done|]. simpl. by rewrite filter_cons_False. }
  destruct (p_rho p) as [|r|rs]; simpl; [done..|].
  by rewrite Hrep.
Qed.

(** With sizes that are fixed, a pass that is not the first one assembles
    exactly when it is clipped. *)
Lemma step_calls_fixed p n s sizes :
  p_nu p = NuFixed sizes → nus s = sizes → nus_last s = sizes →
  dt_last s = dt s → elapsed_t s ≠ 0 →
  step_calls p n s
  = if bool_decide (p_T p < elapsed_t s + dt s) then assembly_calls p n sizes else [].
Proof.
  intros Hnu Hn Hnl Hdl He. unfold step_calls, recompute, entered, sizes_at, clip.
  rewrite Hnu. cbn [dt nus dt_last nus_last elapsed_t set_step].
  rewrite Hn, Hnl, Hdl.
  rewrite (bool_decide_eq_true_2 (sizes = sizes)) by done.
  rewrite (bool_decide_eq_false_2 (elapsed_t s = 0)) by done.
  destruct (decide (p_T p < elapsed_t s + dt s)) as [Hc|Hc].
  - rewrite !(bool_decide_eq_true_2 (p_T p < _)) by done.
    rewrite bool_decide_eq_false_2; [done|]. intros Heq. qc_lra.
  - rewrite !(bool_decide_eq_false_2 (p_T p < _)) by done.
    by rewrite bool_decide_eq_true_2.
Qed.

Lemma step_calls_first p n s :
  elapsed_t s = 0 →
  step_calls p n s = assembly_calls p n (sizes_at p s (clip p s)).
Proof.
  intros He. unfold step_calls, recompute, entered.
  cbn [dt nus dt_last nus_last elapsed_t set_step].
  rewrite (bool_decide_eq_true_2 (elapsed_t s = 0)) by done.
  by rewrite orb_true_r.
Qed.

Lemma run_steps_fixed_sizes p n k s sizes :
  p_nu p = NuFixed sizes → nus s = sizes → nus (run_steps p n k s) = sizes.
Proof.
  intros Hnu. revert s. induction k as [|k IH]; intros s Hn; [done|].
  simpl. apply IH. destruct (stepped_frame p n s) as (_ & -> & _).
  unfold sizes_at. by rewrite Hnu.
Qed.

(** X1.  For T > 0, dt > 0 and vectors that fit [rho], [integrate] makes
    exactly k+1 passes, k the number with k·dt < T ≤ (k+1)·dt: the first k
    passes use the step size dt and end at dt, 2·dt, ..., the last one uses
    what is left, T - k·dt, and ends on T; then the loop is left and the
    call returns the vectors of that state. *)
Theorem integrate_pass_count Y p n h0 :
  let s0 := init_locals Y p h0 in
  resolve_num_pops p = Some n → last Y = Some h0 → shaped Y p →
  0 < p_T p → 0 < p_dt p →
  ∃ k, ntimes k (p_dt p) < p_T p ∧ p_T p ≤ ntimes (S k) (p_dt p)
    ∧ (∀ j, (j ≤ k)%nat →
         reached p n s0 j (run_steps p n j s0)
         ∧ dt (run_steps p n j s0) = p_dt p
         ∧ elapsed_t (run_steps p n j s0) = ntimes j (p_dt p))
    ∧ reached p n s0 (S k) (run_steps p n (S k) s0)
    ∧ dt (run_steps p n (S k) s0) = p_T p - ntimes k (p_dt p)
    ∧ elapsed_t (run_steps p n (S k) s0) = p_T p
    ∧ ∀ fuel tr, (S k < fuel)%nat →
        (∃ tr', while fuel p (env_of p n) s0 tr
                = (Ok (run_steps p n (S k) s0), tr'))
        ∧ ∃ tr', integrate fuel Y p tr
                 = (Ok (result_of p (run_steps p n (S k) s0)), tr').
Proof.
  intros s0 Hn Hh HY HT Hdt.
  destruct (passes_exist (p_T p) (p_dt p) HT Hdt) as (k & Hlt & Hle).
  pose proof (init_inv Y p n h0 (proj1 (shaped_init Y p h0 HY))) as Hinv.
  fold s0 in Hinv.
  destruct (run_steps_last p n k s0 Hdt eq_refl Hlt Hle) as (Hj & Hd & He).
  assert (∀ j, (j ≤ S k)%nat → reached p n s0 j (run_steps p n j s0)) as Hre.
  { intros j Hjk. apply run_steps_reached; [done|].
    intros i Hi. apply Hj. lia. }
  exists k. split_and!; [done|done| |by apply Hre|done|done|].
  - intros j Hjk. destruct (Hj j Hjk) as (H1 & H2 & _).
    split_and!; [apply Hre; lia|done|done].
  - intros fuel tr Hf.
    pose proof (run_while_passes p n k s0 fuel Hdt eq_refl Hlt Hle Hf) as Hw.
    split.
    + rewrite while_pure by done. rewrite Hw. eauto.
    + rewrite (integrate_shaped fuel Y p tr n h0 Hn Hh HY). fold s0.
      rewrite Hw. eauto.
Qed.

(** X2.  With sizes that are fixed, T > 0, dt > 0 and vectors that fit
    [rho], the loop of [integrate] assembles its operators in the first pass
    and once more in the last pass when that one is clipped and is not the
    first; no other pass calls a builder, inverts or factorizes.  So the log
    of a call holds one or two inversions, however many passes it makes. *)
Theorem integrate_fixed_sizes_assemblies Y p n h0 sizes k :
  resolve_num_pops p = Some n → last Y = Some h0 → shaped Y p →
  p_nu p = NuFixed sizes → 0 < p_dt p →
  ntimes k (p_dt p) < p_T p → p_T p ≤ ntimes (S k) (p_dt p) →
  let again := if bool_decide (k = 0%nat ∨ p_T p = ntimes (S k) (p_dt p))
               then [] else assembly_calls p n sizes in
  ∀ fuel tr, (S k < fuel)%nat →
    ∃ Y', integrate fuel Y p tr
          = (Ok Y', tr ++ prologue_calls p n ++ assembly_calls p n sizes ++ again)
    ∧ (1 ≤ inversions (assembly_calls p n sizes ++ again) ≤ 2)%nat.
Proof.
  intros Hn Hh HY Hnu Hdt Hlt Hle again fuel tr Hf.
  set (s0 := init_locals Y p h0).
  destruct (run_steps_last p n k s0 Hdt eq_refl Hlt Hle) as (Hj & Hd & He).
  change (dt s0) with (p_dt p) in Hj, Hd.
  rewrite (integrate_shaped fuel Y p tr n h0 Hn Hh HY). fold s0.
  rewrite (run_while_passes p n k s0 fuel Hdt eq_refl Hlt Hle Hf).
  eexists. split.
  - do 3 f_equal.
    rewrite (run_calls_passes p n (S k));
      [|done|rewrite He; qc_lra|intros j Hjk; apply Hj; lia].
    assert (nus s0 = sizes) as Hn0 by (unfold s0, init_locals; by rewrite Hnu).
    assert (∀ j, (1 ≤ j ≤ k)%nat →
      step_calls p n (run_steps p n j s0)
      = if bool_decide (p_T p < ntimes (S j) (p_dt p))
        then assembly_calls p n sizes else []) as Hlater.
    { intros j Hjk. destruct (Hj j) as (H1 & H2 & H3); [lia|].
      rewrite (step_calls_fixed p n _ sizes); [| done | | | |].
      - rewrite H1, H2. simpl.
        destruct (decide (p_T p < ntimes j (p_dt p) + p_dt p)) as [Hc|Hc].
        + rewrite !bool_decide_eq_true_2; [done|qc_lra|done].
        + rewrite !bool_decide_eq_false_2; [done|qc_lra|done].
      - by apply run_steps_fixed_sizes.
      - destruct j as [|j]; [lia|]. rewrite run_steps_S.
        destruct (stepped_frame p n (run_steps p n j s0)) as (_ & _ & _ & _ & ->).
        unfold sizes_at. rewrite Hnu. by apply run_steps_fixed_sizes.
      - destruct j as [|j]; [lia|]. rewrite run_steps_S.
        by destruct (stepped_frame p n (run_steps p n j s0)) as (-> & _ & _ & -> & _).
      - rewrite H2. pose proof (ntimes_le 1 j (p_dt p) Hdt) as H1j.
        simpl in H1j. intros Hz. specialize (H1j ltac:(lia)). qc_lra. }
    assert (step_calls p n s0 = assembly_calls p n sizes) as Hfirst.
    { rewrite step_calls_first by done. unfold sizes_at. by rewrite Hnu, Hn0. }
    destruct k as [|k].
    + simpl. rewrite Hfirst. unfold again.
      rewrite bool_decide_eq_true_2 by by left. done.
    + rewrite seq_S, fmap_app, join_app. simpl seq at 1.
      rewrite fmap_cons. simpl mjoin at 1. simpl run_steps at 1.
      rewrite Hfirst, (mjoin_fmap_nil _ 1 k), app_nil_r.
      * f_equal. simpl. rewrite app_nil_r.
        change (run_steps p n k (stepped p n s0)) with (run_steps p n (S k) s0).
        rewrite Hlater by lia. unfold again.
        destruct (decide (p_T p = ntimes (S (S k)) (p_dt p))) as [Heq|Hne].
        -- rewrite bool_decide_eq_false_2 by (rewrite Heq; qc_lra).
           rewrite bool_decide_eq_true_2 by by right. done.
        -- rewrite bool_decide_eq_true_2.
           ++ rewrite bool_decide_eq_false_2; [done|]. intros [?|?]; [lia|done].
           ++ simpl in *. qc_lra.
      * intros j Hjk. rewrite Hlater by lia.
        rewrite bool_decide_eq_false_2; [done|].
        pose proof (ntimes_le (S j) (S k) (p_dt p) Hdt ltac:(lia)). qc_lra.
  - rewrite inversions_app, inversions_assembly. unfold again.
    case_bool_decide; [change (inversions []) with 0%nat; lia|].
    rewrite inversions_assembly. lia.
Qed.

(** ** What a call returns *)

Lemma run_while_total p n s :
  elapsed_t s = 0 → (0 < p_T p → 0 < dt s) →
  ∃ k, (∀ fuel, (k < fuel)%nat → run_while fuel p n s = Some (run_steps p n k s))
    ∧ ¬ elapsed_t (run_steps p n k s) < p_T p.
Proof.
  intros He Hd. destruct (decide (0 < p_T p)) as [HT|HT].
  - destruct (passes_exist (p_T p) (dt s) HT (Hd HT)) as (k & Hlt & Hle).
    exists (S k). split.
    + intros fuel Hf. by apply run_while_passes; [apply Hd|..].
    + destruct (run_steps_last p n k s (Hd HT) He Hlt Hle) as (_ & _ & ->).
      qc_lra.
  - exists 0%nat. split.
    + intros [|fuel] Hf; [lia|]. simpl. rewrite bool_decide_eq_false_2; [done|].
      rewrite He. done.
    + simpl. by rewrite He.
Qed.

Lemma stepped_ys_length p n s :
  ld_bound p s → length <$> ys (stepped p n s) = length <$> ys s.
Proof.
  destruct (stepped_vectors p n s) as (_ & _ & ->).
  unfold ld_bound. destruct (p_rho p) as [|r|rs]; [done..|].
  intros (l & -> & Hl). simpl. f_equal. rewrite length_zip_with. lia.
Qed.

Lemma run_steps_ys_length p n k s :
  vectors_bound p s → length <$> ys (run_steps p n k s) = length <$> ys s.
Proof.
  revert s. induction k as [|k IH]; intros s Hb; [done|].
  simpl. rewrite IH by by apply stepped_vectors_bound.
  apply stepped_ys_length, Hb.
Qed.

Lemma result_init Y p h0 :
  last Y = Some h0 → shaped Y p → result_of p (init_locals Y p h0) = Y.
Proof.
  intros Hh. unfold shaped, result_of, init_locals. cbn [y ys h].
  destruct (p_rho p) as [|r|rs]; simpl.
  - intros HY. rewrite bool_decide_eq_false_2 by done.
    by apply removelast_snoc_last.
  - intros HY. rewrite bool_decide_eq_true_2 by done.
    destruct Y as [|a [|b [|c Y]]]; try done. simpl in Hh. by injection Hh as ->.
  - intros [HY _]. rewrite bool_decide_eq_false_2 by done.
    by apply removelast_snoc_last.
Qed.

Lemma result_length Y p n h0 k :
  last Y = Some h0 → shaped Y p →
  length (result_of p (run_steps p n k (init_locals Y p h0))) = length Y.
Proof.
  intros Hh HY. pose proof (shaped_init Y p h0 HY) as Hb.
  pose proof (run_steps_vectors_bound p n k _ Hb) as Hbk.
  pose proof (run_steps_ys_length p n k _ Hb) as Hlen.
  rewrite <- (result_init Y p h0 Hh HY) at 2.
  unfold result_of, vectors_bound, ld_bound in *.
  destruct (p_rho p) as [|r|rs]; simpl in *.
  - destruct Hb as [_ Hb], Hbk as [_ Hbk].
    destruct (Hb eq_refl) as [l Hl], (Hbk eq_refl) as [l' Hl'].
    rewrite Hl, Hl' in *. simpl in *. rewrite !length_app. simpl.
    injection Hlen as ->. done.
  - destruct Hb as [[y0 Hl] _], Hbk as [[y1 Hl'] _]. rewrite Hl, Hl'. done.
  - destruct Hb as [(l & Hl & _) _], Hbk as [(l' & Hl' & _) _].
    rewrite Hl, Hl' in *. simpl in *. rewrite !length_app. simpl.
    injection Hlen as ->. done.
Qed.

Lemma result_last p s : last (result_of p s) = Some (h s).
Proof. unfold result_of. destruct (isscalar (p_rho p)); apply last_snoc. Qed.

Lemma shaped_length Y Y' p : length Y' = length Y → shaped Y p → shaped Y' p.
Proof. unfold shaped. intros ->. done. Qed.

(** X3.  A call of [integrate] whose vectors fit [rho] returns: there is a
    number of passes after which, for any T (with dt > 0 when T > 0), the
    call yields a list of as many vectors as it was given, which again fits
    [rho] and ends with a heterozygosity vector, so that it can be handed to
    the next call as it is. *)
Theorem integrate_keeps_shape Y p n h0 :
  resolve_num_pops p = Some n → last Y = Some h0 → shaped Y p →
  (0 < p_T p → 0 < p_dt p) →
  ∃ k, ∀ fuel tr, (k < fuel)%nat →
    ∃ Y' tr', integrate fuel Y p tr = (Ok Y', tr')
      ∧ length Y' = length Y ∧ shaped Y' p ∧ is_Some (last Y').
Proof.
  intros Hn Hh HY Hdt.
  destruct (run_while_total p n (init_locals Y p h0) eq_refl Hdt) as (k & Hk & _).
  exists k. intros fuel tr Hf.
  rewrite (integrate_shaped fuel Y p tr n h0 Hn Hh HY), (Hk fuel Hf).
  eexists _, _. split; [done|].
  pose proof (result_length Y p n h0 k Hh HY) as Hlen.
  split_and!; [done|by eapply shaped_length|].
  rewrite result_last. by eexists.
Qed.

(** X4.  A duration T ≤ 0, negative ones included, is not an error: the
    loop is not entered, [integrate] returns the vectors it was given, and
    the only external calls are the builder calls before the loop. *)
Theorem integrate_nonpositive_duration Y p n h0 fuel tr :
  resolve_num_pops p = Some n → last Y = Some h0 → shaped Y p →
  p_T p ≤ 0 →
  integrate (S fuel) Y p tr = (Ok Y, tr ++ prologue_calls p n).
Proof.
  intros Hn Hh HY HT.
  rewrite (integrate_shaped (S fuel) Y p tr n h0 Hn Hh HY). simpl.
  rewrite bool_decide_eq_false_2 by (intros Hlt; qc_lra).
  by rewrite app_nil_r, result_init.
Qed.

(** ** Without a recombination rate, without migration *)

Lemma run_calls_no_rho fuel p n s :
  p_rho p = RhoNone → Forall (λ c, ld_call c = false) (run_calls fuel p n s).
Proof.
  intros Hrho. revert s. induction fuel as [|fuel IH]; intros s; [constructor|].
  simpl. case_bool_decide; [|constructor].
  apply Forall_app. split; [|apply IH].
  unfold step_calls, assembly_calls, drift_calls, factor_calls. rewrite Hrho.
  destruct (recompute _); repeat constructor.
Qed.

Lemma prologue_calls_no_rho p n :
  p_rho p = RhoNone → Forall (λ c, ld_call c = false) (prologue_calls p n).
Proof.
  intros Hrho. unfold prologue_calls. rewrite Hrho. simpl.
  destruct (has_migration n (p_m p)); repeat constructor.
Qed.

(** X5.  Without a recombination rate ([rho] None) and with a number of
    vectors other than two, [integrate] advances the heterozygosity vector
    only: the LD vectors come back as they were given, and no LD operator is
    built and nothing is factorized. *)
Theorem integrate_without_rho Y p n h0 :
  resolve_num_pops p = Some n → last Y = Some h0 →
  p_rho p = RhoNone → length Y ≠ 2%nat → (0 < p_T p → 0 < p_dt p) →
  ∃ k, ∀ fuel tr, (k < fuel)%nat →
    ∃ h' calls,
      integrate fuel Y p tr = (Ok (removelast Y ++ [h']), tr ++ calls)
      ∧ h' = h (run_steps p n k (init_locals Y p h0))
      ∧ Forall (λ c, ld_call c = false) calls.
Proof.
  intros Hn Hh Hrho HY Hdt.
  assert (shaped Y p) as Hs by (unfold shaped; by rewrite Hrho).
  destruct (run_while_total p n (init_locals Y p h0) eq_refl Hdt) as (k & Hk & _).
  exists k. intros fuel tr Hf.
  rewrite (integrate_shaped fuel Y p tr n h0 Hn Hh Hs), (Hk fuel Hf).
  eexists _, _. split_and!; [|done|].
  - do 2 f_equal. unfold result_of. rewrite Hrho. simpl.
    rewrite run_steps_no_rho by done. unfold init_locals. cbn [ys].
    by rewrite bool_decide_eq_false_2.
  - apply Forall_app. split;
      [by apply prologue_calls_no_rho|by apply run_calls_no_rho].
Qed.

Lemma step_without_migration p n e s tr :
  num_pops e = n → has_migration n (p_m p) = false →
  step p e s tr = step (with_m p None) e s tr.
Proof.
  intros He Hm. unfold step, rebuild, combine. rewrite He, Hm. done.
Qed.

Lemma while_without_migration fuel p n e s tr :
  num_pops e = n → has_migration n (p_m p) = false →
  while fuel p e s tr = while fuel (with_m p None) e s tr.
Proof.
  intros He Hm. revert s tr. induction fuel as [|fuel IH]; intros s tr; [done|].
  simpl. case_bool_decide; [|done].
  rewrite !bind_run, (step_without_migration p n) by done.
  destruct (step _ _ _ _) as [[s'| |] tr']; [apply IH|done..].
Qed.

Lemma env_without_migration p n :
  has_migration n (p_m p) = false → env_of (with_m p None) n = env_of p n.
Proof. intros Hm. unfold env_of. rewrite Hm. done. Qed.

Lemma prologue_calls_without_migration p n :
  has_migration n (p_m p) = false →
  prologue_calls (with_m p None) n = prologue_calls p n.
Proof. intros Hm. unfold prologue_calls. rewrite Hm. done. Qed.

(** X6.  Migration rates that are all zero, and any migration matrix when
    there is a single population, count as no migration: [integrate] returns
    the same result and makes the same external calls as with [m] None, and
    fails in the same way where it fails. *)
Theorem integrate_without_migration fuel Y p n tr :
  resolve_num_pops p = Some n → has_migration n (p_m p) = false →
  integrate fuel Y p tr = integrate fuel Y (with_m p None) tr.
Proof.
  intros Hn Hm. unfold integrate. rewrite !bind_run.
  destruct (last Y) as [h0|] eqn:Hh.
  - rewrite (prologue_log Y p tr n h0 Hn Hh).
    rewrite (prologue_log Y (with_m p None) tr n h0 Hn Hh).
    rewrite env_without_migration, prologue_calls_without_migration by done.
    change (init_locals Y (with_m p None) h0) with (init_locals Y p h0).
    rewrite !bind_run, (while_without_migration fuel p n) by done.
    done.
  - apply last_None in Hh as ->.
    rewrite !prologue_empty; [done|exists n; exact Hn..].
Qed.

(** ** More LD vectors than rates *)

Lemma rebuilt_frame p n s :
  h (rebuilt p n s) = h s ∧ y (rebuilt p n s) = y s ∧ ys (rebuilt p n s) = ys s
  ∧ dt (rebuilt p n s) = dt s ∧ nus (rebuilt p n s) = nus s.
Proof. unfold rebuilt. by destruct (p_rho p). Qed.

(** X7.  With a list of rates and more LD vectors than rates (and not two
    vectors in all), [integrate] with T > 0 assembles the operators of the
    first pass and then raises IndexError in its forward sub-step, having
    advanced nothing; with T ≤ 0 the mismatch goes unnoticed and the vectors
    are returned as given. *)
Theorem integrate_more_vectors_than_rates Y p n h0 rs fuel tr :
  let s0 := init_locals Y p h0 in
  resolve_num_pops p = Some n → last Y = Some h0 →
  p_rho p = RhoList rs → (S (length rs) < length Y)%nat → length Y ≠ 2%nat →
  (0 < p_T p →
     integrate (S fuel) Y p tr
     = (Raise IndexError,
        tr ++ prologue_calls p n
           ++ assembly_calls p n (sizes_at p s0 (clip p s0))))
  ∧ (p_T p ≤ 0 → integrate (S fuel) Y p tr = (Ok Y, tr ++ prologue_calls p n)).
Proof.
  intros s0 Hn Hh Hrho Hlen HY. unfold integrate.
  rewrite bind_run, (prologue_log Y p tr n h0 Hn Hh). fold s0. split.
  - intros HT. rewrite bind_run. simpl while.
    rewrite bool_decide_eq_true_2 by done.
    rewrite bind_run. unfold step. fold (entered p s0).
    rewrite bind_run, rebuild_run.
    assert (recompute (entered p s0) = true) as ->.
    { unfold recompute, entered, s0, init_locals. cbn [elapsed_t set_step].
      rewrite (bool_decide_eq_true_2 (_ = 0)) by done. apply orb_true_r. }
    destruct (rebuilt_frame p n (entered p s0)) as (_ & _ & Hys & Hd & Hnus).
    rewrite bind_run.
    rewrite (forward_too_many p n _ _ rs (removelast Y) Hrho).
    + by rewrite <- app_assoc.
    + rewrite Hd, Hnus. apply rebuilt_built.
    + rewrite Hys. unfold entered, s0, init_locals. cbn [ys set_step].
      by rewrite bool_decide_eq_false_2.
    + destruct Y as [|v Y] using rev_ind; [simpl in Hlen; lia|].
      rewrite removelast_last. rewrite length_app in Hlen. simpl in Hlen. lia.
  - intros HT. rewrite bind_run, while_exit by (fold s0; simpl; intros ?; qc_lra).
    apply epilogue_init; [done|]. rewrite Hrho. simpl. split; [done|discriminate].
Qed.

(** ** Runs that differ in [rho] *)

Lemma stepped_in_step p rho' n s s' :
  in_step s s' → in_step (stepped p n s) (stepped (with_rho p rho') n s').
Proof.
  intros (Hh & Hd & Hn & He).
  assert (clip (with_rho p rho') s' = clip p s) as Hc.
  { unfold clip. simpl. by rewrite Hd, He. }
  assert (sizes_at (with_rho p rho') s' (clip p s) = sizes_at p s (clip p s)) as Hs.
  { unfold sizes_at. simpl. by rewrite Hn, He. }
  destruct (stepped_frame p n s) as (H1 & H2 & H3 & _).
  destruct (stepped_frame (with_rho p rho') n s') as (H1' & H2' & H3' & _).
  destruct (stepped_vectors p n s) as (H4 & _).
  destruct (stepped_vectors (with_rho p rho') n s') as (H4' & _).
  unfold in_step.
  rewrite H1, H2, H3, H4, H1', H2', H3', H4', Hc, Hs, Hh, He. done.
Qed.

Lemma run_while_in_step fuel p rho' n : ∀ s s',
  in_step s s' →
  option_Forall2 in_step (run_while fuel p n s)
                         (run_while fuel (with_rho p rho') n s').
Proof.
  induction fuel as [|fuel IH]; intros s s' Hs; [constructor|].
  simpl. pose proof Hs as (Hh & Hd & Hn & He). rewrite <- He.
  case_bool_decide.
  - apply IH. by apply stepped_in_step.
  - by constructor.
Qed.

Lemma stepped_ld_at p n rs i r s s' :
  p_rho p = RhoList rs → rs !! i = Some r →
  in_step s s' → ld_at i s s' →
  ld_at i (stepped p n s) (stepped (with_rho p (RhoScalar r)) n s').
Proof.
  intros Hrho Hr (Hh & Hd & Hn & He) (l & yi & Hys & Hl & Hy).
  assert (clip (with_rho p (RhoScalar r)) s' = clip p s) as Hc.
  { unfold clip. simpl. by rewrite Hd, He. }
  assert (sizes_at (with_rho p (RhoScalar r)) s' (clip p s)
          = sizes_at p s (clip p s)) as Hs.
  { unfold sizes_at. simpl. by rewrite Hn, He. }
  destruct (stepped_vectors p n s) as (_ & _ & H1).
  destruct (stepped_vectors (with_rho p (RhoScalar r)) n s') as (_ & H2 & _).
  rewrite Hrho, Hys in H1. simpl in H1, H2. rewrite Hy, Hc, Hs, <- Hh in H2.
  eexists _, _. split_and!; [exact H1| |exact H2].
  rewrite lookup_zip_with, Hr, Hl. done.
Qed.

Lemma run_while_ld_at fuel p n rs i r : ∀ s s',
  p_rho p = RhoList rs → rs !! i = Some r →
  in_step s s' → ld_at i s s' →
  option_Forall2 (λ a b, in_step a b ∧ ld_at i a b)
    (run_while fuel p n s)
    (run_while fuel (with_rho p (RhoScalar r)) n s').
Proof.
  induction fuel as [|fuel IH]; intros s s' Hrho Hr Hs Hld; [constructor|].
  simpl. pose proof Hs as (Hh & Hd & Hn & He). rewrite <- He.
  case_bool_decide.
  - apply IH; [done..| |].
    + by apply stepped_in_step.
    + by eapply stepped_ld_at.
  - by constructor.
Qed.

(** X8.  The heterozygosity vector [integrate] returns does not depend on
    the recombination rates nor on the LD vectors: two calls that differ
    only in [rho] and in the LD vectors in [Y], each with vectors that fit
    its [rho], return the same last entry. *)
Theorem integrate_h_independent_of_rho Y Y' p rho' n h0 :
  resolve_num_pops p = Some n → last Y = Some h0 → last Y' = Some h0 →
  shaped Y p → shaped Y' (with_rho p rho') → (0 < p_T p → 0 < p_dt p) →
  ∃ k, ∀ fuel tr tr', (k < fuel)%nat →
    ∃ Z Z' h',
      (integrate fuel Y p tr).1 = Ok Z
      ∧ (integrate fuel Y' (with_rho p rho') tr').1 = Ok Z'
      ∧ last Z = Some h' ∧ last Z' = Some h'.
Proof.
  intros Hn Hh Hh' HY HY' Hdt.
  destruct (run_while_total p n (init_locals Y p h0) eq_refl Hdt) as (k & Hk & _).
  exists k. intros fuel tr tr' Hf.
  rewrite (integrate_shaped fuel Y p tr n h0 Hn Hh HY).
  rewrite (integrate_shaped fuel Y' (with_rho p rho') tr' n h0 Hn Hh' HY').
  pose proof (run_while_in_step fuel p rho' n (init_locals Y p h0)
                (init_locals Y' (with_rho p rho') h0)) as Hsync.
  rewrite (Hk fuel Hf) in *.
  specialize (Hsync ltac:(by repeat split)).
  inversion Hsync as [a b (Hab & _) Ha Hb|].
  eexists _, _, _. split_and!; [done|done|apply result_last|].
  rewrite result_last. by rewrite Hab.
Qed.

(** X9.  A call with a list of rates integrates each LD vector as the call
    with that rate alone does: for the [i]-th rate [r] and the [i]-th LD
    vector [yi] of [Y], [integrate] on the pair [[yi; h]] with the scalar
    rate [r] returns the [i]-th LD vector and the heterozygosity vector the
    batched call returns. *)
Theorem integrate_batch_per_rate Y p n h0 rs i r yi :
  resolve_num_pops p = Some n → last Y = Some h0 →
  p_rho p = RhoList rs → shaped Y p →
  rs !! i = Some r → removelast Y !! i = Some yi →
  (0 < p_T p → 0 < p_dt p) →
  ∃ k, ∀ fuel tr tr', (k < fuel)%nat →
    ∃ Z y' h',
      (integrate fuel Y p tr).1 = Ok Z
      ∧ (integrate fuel [yi; h0] (with_rho p (RhoScalar r)) tr').1 = Ok [y'; h']
      ∧ Z !! i = Some y' ∧ last Z = Some h' ∧ length Z = length Y.
Proof.
  intros Hn Hh Hrho HY Hr Hyi Hdt.
  set (p' := with_rho p (RhoScalar r)).
  set (s0 := init_locals Y p h0). set (s0' := init_locals [yi; h0] p' h0).
  destruct (run_while_total p n s0 eq_refl Hdt) as (k & Hk & _).
  exists k. intros fuel tr tr' Hf.
  rewrite (integrate_shaped fuel Y p tr n h0 Hn Hh HY).
  rewrite (integrate_shaped fuel [yi; h0] p' tr' n h0 Hn eq_refl eq_refl).
  fold s0 s0'.
  assert (in_step s0 s0') as Hs by by repeat split.
  assert (ld_at i s0 s0') as Hld.
  { exists (removelast Y), yi. split_and!; [|done|done].
    unfold s0, init_locals. cbn [ys]. unfold shaped in HY. rewrite Hrho in HY.
    by rewrite bool_decide_eq_false_2 by apply HY. }
  pose proof (run_while_ld_at fuel p n rs i r s0 s0' Hrho Hr Hs Hld) as Hsync.
  fold p' in Hsync. rewrite (Hk fuel Hf) in *.
  inversion Hsync as [a b [(Hab & _) (l & y' & Hl & Hli & Hy')] Ha Hb|].
  subst a. exists (result_of p (run_steps p n k s0)), y', (h b).
  split_and!; [done| | | |].
  - simpl. unfold result_of. simpl. by rewrite Hy'.
  - unfold result_of. rewrite Hrho, Hl. simpl.
    by rewrite lookup_app_l by by eapply lookup_lt_Some.
  - rewrite <- Hab. apply result_last.
  - by apply result_length.
Qed.

(** ** Two epochs in a row *)

Lemma ntimes_lt j k d : 0 < d → (j < k)%nat → ntimes j d < ntimes k d.
Proof.
  intros Hd Hjk. pose proof (ntimes_le (S j) k d Hd Hjk) as Hle.
  simpl in Hle. qc_lra.
Qed.

Lemma same_vectors_result p s s' :
  same_vectors p s s' → result_of p s = result_of p s'.
Proof.
  unfold same_vectors, result_of. intros [-> Hld].
  destruct (isscalar (p_rho p)); by rewrite Hld.
Qed.

(** With fixed sizes, a pass depends on T through its step size only. *)
Lemma stepped_with_T p n sizes T T' s s' :
  p_nu p = NuFixed sizes → same_vectors p s s' → nus s = nus s' →
  clip (with_T p T) s = clip (with_T p T') s' →
  same_vectors p (stepped (with_T p T) n s) (stepped (with_T p T') n s').
Proof.
  intros Hnu [Hh Hld] Hn Hc.
  destruct (stepped_vectors (with_T p T) n s) as (H1 & H2 & H3).
  destruct (stepped_vectors (with_T p T') n s') as (H1' & H2' & H3').
  assert (∀ T0 s0 d, sizes_at (with_T p T0) s0 d = nus s0) as Hs.
  { intros. unfold sizes_at. simpl. by rewrite Hnu. }
  rewrite !Hs in *.
  change (p_rho (with_T p T)) with (p_rho p) in *.
  change (p_rho (with_T p T')) with (p_rho p) in *.
  unfold same_vectors. rewrite H1, H1', H2, H2', H3, H3', Hc, Hn, Hh.
  split; [done|].
  destruct (p_rho p) as [|r|rs]; simpl in *; by rewrite Hld.
Qed.

Lemma run_while_add p n k : ∀ s fuel,
  (∀ j, (j < k)%nat → elapsed_t (run_steps p n j s) < p_T p) →
  run_while (k + fuel) p n s = run_while fuel p n (run_steps p n k s).
Proof.
  induction k as [|k IH]; intros s fuel Hlt; [done|].
  simpl. rewrite bool_decide_eq_true_2 by (apply (Hlt 0%nat); lia).
  apply IH. intros j Hj. apply (Hlt (S j)). lia.
Qed.

(** The first [k] passes of a run whose T covers [k] steps. *)
Lemma run_steps_fixed_nus p n k sizes : ∀ s,
  p_nu p = NuFixed sizes → nus (run_steps p n k s) = nus s.
Proof.
  induction k as [|k IH]; intros s Hnu; [done|].
  simpl. rewrite IH by done. destruct (stepped_frame p n s) as (_ & -> & _).
  unfold sizes_at. by rewrite Hnu.
Qed.

Lemma same_vectors_refl p s : same_vectors p s s.
Proof. split; [done|]. by destruct (isscalar _). Qed.

Lemma run_steps_with_T p n sizes T T' k s :
  p_nu p = NuFixed sizes → 0 < dt s →
  ntimes k (dt s) ≤ T - elapsed_t s → ntimes k (dt s) ≤ T' - elapsed_t s →
  same_vectors p (run_steps (with_T p T) n k s) (run_steps (with_T p T') n k s).
Proof.
  intros Hnu Hd. induction k as [|k IH]; intros HT HT';
    [apply same_vectors_refl|].
  rewrite !run_steps_S.
  assert (ntimes k (dt s) ≤ ntimes (S k) (dt s)) as Hk
    by (apply ntimes_le; [done|lia]).
  destruct (run_steps_uniform (with_T p T) n k s Hd) as [H1 H2];
    [simpl; qc_lra|].
  destruct (run_steps_uniform (with_T p T') n k s Hd) as [H1' H2'];
    [simpl; qc_lra|].
  apply (stepped_with_T p n sizes); [done|apply IH; qc_lra| |].
  - by rewrite !(run_steps_fixed_nus _ n k sizes).
  - unfold clip. rewrite H1, H2, H1', H2'. simpl in *.
    rewrite !bool_decide_eq_false_2; [done|qc_lra|qc_lra].
Qed.

Lemma init_result p p' s :
  vectors_bound p s → (isscalar (p_rho p) = false → length (result_of p s) ≠ 2%nat) →
  same_vectors p (init_locals (result_of p s) p' (h s)) s.
Proof.
  unfold vectors_bound, ld_bound, same_vectors, result_of, init_locals.
  cbn [h y ys].
  destruct (p_rho p) as [|r|rs]; simpl; intros [Hb Hn] Hlen; (split; [done|]).
  - destruct (Hn eq_refl) as [l Hl]. rewrite Hl in *. simpl in *.
    rewrite bool_decide_eq_false_2 by by apply Hlen.
    by rewrite removelast_last.
  - destruct Hb as [y0 ->]. done.
  - destruct Hb as (l & Hl & _). rewrite Hl in *. simpl in *.
    rewrite bool_decide_eq_false_2 by by apply Hlen.
    by rewrite removelast_last.
Qed.

(** A run for [T1 + T2] that has come to [T1], and a run for [T2] that
    starts on the same vectors. *)
Lemma run_while_offset fuel p n sizes T1 T2 :
  p_nu p = NuFixed sizes →
  ∀ sA s2,
    same_vectors p sA s2 → dt sA = dt s2 → nus sA = nus s2 →
    elapsed_t sA = elapsed_t s2 + T1 →
    option_Forall2 (same_vectors p)
      (run_while fuel (with_T p (T1 + T2)) n sA)
      (run_while fuel (with_T p T2) n s2).
Proof.
  intros Hnu. induction fuel as [|fuel IH]; intros sA s2 Hv Hd Hn He;
    [constructor|].
  simpl.
  assert (clip (with_T p (T1 + T2)) sA = clip (with_T p T2) s2) as Hc.
  { unfold clip. simpl. rewrite He, Hd.
    destruct (decide (T2 < elapsed_t s2 + dt s2)).
    - rewrite !bool_decide_eq_true_2; [qc_lra|done|qc_lra].
    - rewrite !bool_decide_eq_false_2; [done|done|qc_lra]. }
  destruct (decide (elapsed_t s2 < T2)) as [Hlt|Hge].
  - rewrite !bool_decide_eq_true_2; [|done|rewrite He; qc_lra].
    destruct (stepped_frame (with_T p (T1 + T2)) n sA) as (H1 & H2 & H3 & _).
    destruct (stepped_frame (with_T p T2) n s2) as (H1' & H2' & H3' & _).
    apply IH.
    + by apply (stepped_with_T p n sizes).
    + by rewrite H1, H1'.
    + rewrite H2, H2'. unfold sizes_at. simpl. by rewrite Hnu.
    + rewrite H3, H3', Hc, He. qc_lra.
  - rewrite !bool_decide_eq_false_2; [|done|rewrite He; qc_lra].
    by constructor.
Qed.

(** X10.  Two epochs in a row are one epoch: with fixed sizes and a first
    duration T1 that is a whole number of steps dt, integrating for T1 and
    then, from the result, for T2 returns what integrating for T1 + T2
    returns. *)
Theorem integrate_epochs_compose Y p n h0 sizes k T2 :
  let T1 := ntimes k (p_dt p) in
  resolve_num_pops p = Some n → last Y = Some h0 → shaped Y p →
  p_nu p = NuFixed sizes → 0 < p_dt p → 0 ≤ T2 →
  ∃ K, ∀ fuel tr1 tr2 tr, (K < fuel)%nat →
    ∃ Y1 Y2,
      (integrate fuel Y (with_T p T1) tr1).1 = Ok Y1
      ∧ (integrate fuel Y1 (with_T p T2) tr2).1 = Ok Y2
      ∧ (integrate fuel Y (with_T p (T1 + T2)) tr).1 = Ok Y2.
Proof.
  intros T1 Hn Hh HY Hnu Hdt HT2.
  pose proof (eq_refl : T1 = ntimes k (p_dt p)) as HT1. clearbody T1.
  set (s0 := init_locals Y p h0).
  set (B := run_steps (with_T p T1) n k s0).
  set (A := run_steps (with_T p (T1 + T2)) n k s0).
  pose proof (shaped_init Y p h0 HY) as Hb0.
  assert (vectors_bound p B) as HbB.
  { apply (run_steps_vectors_bound (with_T p T1)). exact Hb0. }
  assert (same_vectors p A B) as HAB.
  { apply (run_steps_with_T p n sizes); [done|done|..]; simpl; qc_lra. }
  assert (∀ T, T1 ≤ T →
            dt (run_steps (with_T p T) n k s0) = p_dt p
            ∧ elapsed_t (run_steps (with_T p T) n k s0) = T1
            ∧ ∀ j, (j < k)%nat →
                elapsed_t (run_steps (with_T p T) n j s0) < T) as Hcourse.
  { intros T HT. destruct (run_steps_uniform (with_T p T) n k s0 Hdt) as [-> ->];
      [simpl; qc_lra|].
    split_and!; [done|simpl; qc_lra|].
    intros j Hj. pose proof (ntimes_lt j k (p_dt p) Hdt Hj) as Hlt.
    destruct (run_steps_uniform (with_T p T) n j s0 Hdt) as [_ ->];
      simpl; qc_lra. }
  destruct (Hcourse T1) as (HdB & HeB & HltB); [qc_lra|].
  destruct (Hcourse (T1 + T2)) as (HdA & HeA & HltA); [qc_lra|].
  fold B in HdB, HeB. fold A in HdA, HeA.
  set (Y1 := result_of p B).
  assert (length Y1 = length Y) as Hlen1.
  { apply (result_length Y (with_T p T1) n h0 k Hh HY). }
  assert (shaped Y1 p) as HY1 by by eapply shaped_length.
  set (s2 := init_locals Y1 (with_T p T2) (h B)).
  assert (same_vectors p s2 B) as Hs2.
  { apply init_result; [done|]. intros Hsc. fold Y1. rewrite Hlen1.
    unfold shaped in HY. destruct (p_rho p); [done|done|apply HY]. }
  destruct (run_while_total (with_T p T2) n s2 eq_refl) as (K2 & HK2 & _);
    [done|].
  exists (k + K2)%nat. intros fuel tr1 tr2 tr Hf.
  exists Y1, (result_of p (run_steps (with_T p T2) n K2 s2)). split_and!.
  - rewrite (integrate_shaped fuel Y (with_T p T1) tr1 n h0 Hn Hh HY).
    change (init_locals Y (with_T p T1) h0) with s0.
    rewrite (run_steps_while (with_T p T1) n k); [done|lia| |done].
    fold B. rewrite HeB. simpl. qc_lra.
  - rewrite (integrate_shaped fuel Y1 (with_T p T2) tr2 n (h B) Hn
               (result_last p B) HY1).
    fold s2. by rewrite HK2 by lia.
  - rewrite (integrate_shaped fuel Y (with_T p (T1 + T2)) tr n h0 Hn Hh HY).
    change (init_locals Y (with_T p (T1 + T2)) h0) with s0.
    replace fuel with (k + (fuel - k))%nat by lia.
    rewrite run_while_add by done. fold A.
    assert (same_vectors p A s2) as H1.
    { destruct Hs2 as [Hs2h Hs2v], HAB as [HABh HABv].
      split; [congruence|]. destruct (isscalar (p_rho p)); congruence. }
    assert (dt A = dt s2) as H2 by by rewrite HdA.
    assert (nus A = nus s2) as H3.
    { unfold A. by rewrite (run_steps_fixed_nus _ n k sizes). }
    assert (elapsed_t A = elapsed_t s2 + T1) as H4.
    { rewrite HeA. simpl. qc_lra. }
    pose proof (run_while_offset (fuel - k) p n sizes T1 T2 Hnu A s2
                  H1 H2 H3 H4) as Hoff.
    rewrite HK2 in Hoff by lia.
    inversion Hoff as [a b Hab Ha Hb|].
    simpl. f_equal. exact (same_vectors_result p _ _ Hab).
Qed.

(** ** The equilibrium solvers on valid and on invalid arguments *)

Lemma equilibrium_ld_run theta r f tr :
  equilibrium_ld theta r f tr
  = (Ok (ld_ss_of theta f r), tr ++ equilibrium_calls theta r).
Proof.
  unfold equilibrium_ld, ld_ss_of, h_ss_of, equilibrium_calls.
  unfold_M. simpl. rewrite <- !app_assoc. done.
Qed.

Lemma equilibrium_lds_run theta rs f tr :
  equilibrium_lds theta rs f tr
  = (Ok (ld_ss_of theta f <$> rs), tr ++ mjoin (equilibrium_calls theta <$> rs)).
Proof.
  revert tr. induction rs as [|r rs IH]; intros tr; simpl.
  - by rewrite app_nil_r.
  - rewrite bind_run, equilibrium_ld_run, bind_run, IH. simpl.
    by rewrite <- !app_assoc.
Qed.

Lemma check_rho_invalid msg1 msg2 rho tr :
  ¬ rho_valid rho →
  ∃ msg, check_rho msg1 msg2 rho tr = (Raise (ValueError msg), tr).
Proof.
  intros Hbad. apply check_rho_negative.
  destruct rho as [|r|rs]; simpl in *.
  - done.
  - by apply Qcnot_le_lt.
  - apply not_Forall_Exists in Hbad; [|apply _].
    eapply Exists_impl; [done|]. intros r Hr. by apply Qcnot_le_lt.
Qed.

Lemma rho_valid_dec rho : Decision (rho_valid rho).
Proof. destruct rho; simpl; apply _. Qed.

(** X11.  [steady_state] is decided by its arguments.  With theta > 0, no
    negative rate and a selfing rate that is absent or a scalar in [0, 1] it
    returns one solved LD vector per rate, in the order of the rates,
    followed by the heterozygosity, and it calls the three LD builders and
    the factorization once for every rate, in that order.  In every other
    case, a list for the selfing rate with values in range included, it
    raises ValueError before any call. *)
Theorem steady_state_decided theta rho sr tr :
  let f := selfing_scalar sr in
  (0 < theta ∧ rho_valid rho ∧ selfing_ok sr →
     steady_state theta rho sr tr
     = (Ok ((ld_ss_of theta f <$> rates rho) ++ [h_ss_of theta f]),
        tr ++ mjoin (equilibrium_calls theta <$> rates rho)))
  ∧ (¬ (0 < theta ∧ rho_valid rho ∧ selfing_ok sr) →
     ∃ msg, steady_state theta rho sr tr = (Raise (ValueError msg), tr)).
Proof.
  intros f. split.
  - intros (Htheta & Hrho & Hsr). rewrite steady_state_valid by done.
    destruct sr as [|f0|fs]; simpl in Hsr; [| |done].
    + destruct rho as [|r|rs]; simpl.
      * by rewrite app_nil_r.
      * by rewrite bind_run, equilibrium_ld_run.
      * by rewrite bind_run, equilibrium_lds_run.
    + rewrite in_unit_interval by done.
      destruct rho as [|r|rs]; simpl.
      * by rewrite app_nil_r.
      * by rewrite bind_run, equilibrium_ld_run.
      * by rewrite bind_run, equilibrium_lds_run.
  - intros Hbad.
    destruct (decide (theta ≤ 0)) as [Htheta|Htheta];
      [apply steady_state_rejects; by left|].
    apply Qcnot_le_lt in Htheta.
    destruct (rho_valid_dec rho) as [Hrho|Hrho].
    + rewrite steady_state_valid by done.
      destruct sr as [|f0|fs]; simpl in *; [by destruct Hbad|..|by eexists].
      case_bool_decide as H0; [by eexists|]. simpl.
      case_bool_decide as H1; [by eexists|].
      destruct Hbad. split_and!; [done..|by apply Qcnot_lt_le|by apply Qcnot_lt_le].
    + unfold steady_state. rewrite bool_decide_eq_false_2 by by apply Qclt_not_le.
      rewrite !bind_run. simpl.
      destruct (check_rho_invalid "rho cannot be negative"
                  "rho values cannot be negative" rho tr Hrho) as [msg Hmsg].
      rewrite (bind_raise _ _ _ _ _ Hmsg). by eexists.
Qed.

End Properties.

(** * Runs of the concrete instance *)

Module Runs.
Import OnePop.

Lemma steady_state_heterozygosity_witness :
  0 < q 1 1000 ∧ rho_valid (RhoList [0; 1])
  ∧ ∃ Y_ss tr', steady_state (q 1 1000) (RhoList [0; 1]) SelfNone []
                = (Ok Y_ss, tr')
                ∧ last Y_ss = Some (array1 (q 1 1000)).
Proof.
  assert (0 < q 1 1000) as Htheta by reflexivity.
  assert (rho_valid (RhoList [0; 1])) as Hrho
    by (repeat constructor; discriminate).
  split_and!; [done..|].
  destruct (steady_state_heterozygosity (q 1 1000) (RhoList [0; 1]) Htheta Hrho)
    as [Hnone _].
  destruct (Hnone []) as (Y_ss & tr' & Hrun & Hlast & _). eauto.
Defined.

Lemma steady_state_batch_witness :
  0 < q 1 1000 ∧ Forall (λ r, 0 ≤ r) [0; 1] ∧ selfing_ok (SelfScalar (q 1 2))
  ∧ ∃ ys_ss h_ss tr',
      steady_state (q 1 1000) (RhoList [0; 1]) (SelfScalar (q 1 2)) []
      = (Ok (ys_ss ++ [h_ss]), tr')
      ∧ length ys_ss = 2%nat.
Proof.
  assert (0 < q 1 1000) as Htheta by reflexivity.
  assert (Forall (λ r, 0 ≤ r) [0; 1]) as Hrs
    by (repeat constructor; discriminate).
  assert (selfing_ok (SelfScalar (q 1 2))) as Hsr by (split; discriminate).
  split_and!; [done..|].
  destruct (steady_state_batch (q 1 1000) [0; 1] (SelfScalar (q 1 2))
              Htheta Hrs Hsr [])
    as (ys_ss & h_ss & tr' & Hrun & Hlen & _). eauto.
Defined.

Lemma invalid_parameters_rejected_witness :
  q (-1) 1 ≤ 0
  ∧ ∃ msg, steady_state (q (-1) 1) (RhoScalar 1) SelfNone []
           = (Raise (ValueError msg), []).
Proof.
  assert (q (-1) 1 ≤ 0) as Htheta by discriminate.
  split; [done|].
  apply (proj1 invalid_parameters_rejected). by left.
Defined.






Lemma s3_bound : ld_bound p3 s3.
Proof. by eexists. Qed.



Lemma sizes_at_step_midpoint_witness :
  let p := growing (q 1 400) (RhoScalar 1) in
  let s0 := init_locals Y_ld p (q 1 1000) in
  ld_bound p s0 ∧ reached p 1 s0 0 s0 ∧ elapsed_t s0 < p_T p
  ∧ ∃ s' calls,
      step p (env_of p 1) s0 [] = (Ok s', [] ++ calls)
      ∧ nus s' = [1 + (0 + clip p s0 / 2)].
Proof.
  intros p s0.
  assert (ld_bound p s0) as Hb by by eexists.
  split_and!; [done|constructor|reflexivity|].
  destruct (sizes_at_step_midpoint Y_ld p 1%nat (q 1 1000) 0%nat s0
              Hb (reached_O _ _ _) eq_refl [])
    as (s' & calls & Hstep & _ & Hnus & _).
  eauto.
Defined.

(** The second pass: same step size, same sizes, nothing assembled. *)
Lemma operators_rebuilt_on_change_witness :
  let s1 := stepped p3 1 s3 in
  ld_bound p3 s3 ∧ reached p3 1 s3 1 s1 ∧ elapsed_t s1 < p_T p3
  ∧ ∃ s', step p3 (env_of p3 1) s1 [] = (Ok s', [])
          ∧ solvers_of s' = solvers_of s1.
Proof.
  intros s1.
  assert (reached p3 1 s3 1 s1) as Hr.
  { apply reached_stepped; [apply init_inv, s3_bound|constructor|reflexivity]. }
  assert (elapsed_t s1 < p_T p3) as Ht by (vm_compute; reflexivity).
  split_and!; [exact s3_bound|done..|].
  destruct (operators_rebuilt_on_change Y_ld p3 1%nat (q 1 1000) 1%nat s1
              s3_bound Hr Ht)
    as [_ Hpass].
  destruct (Hpass []) as (s' & Hstep & Hreuse & _).
  assert (bool_decide (elapsed_t s1 = 0)
          || negb (bool_decide (clip p3 s1 = dt_last s1))
          || negb (bool_decide (sizes_at p3 s1 (clip p3 s1) = nus_last s1))
          = false) as Hsame by (vm_compute; reflexivity).
  rewrite Hsame in Hstep. eauto.
Defined.

(** Runs that show where the statements above stop. *)

Example three_passes_two_assemblies :
  (integrate 5 Y_ld p3 []).2
  = prologue_calls p3 1 ++ assembly_calls p3 1 [1] ++ assembly_calls p3 1 [1].
Proof. reflexivity. Qed.

Example growing_sizes_assemble_every_pass :
  assemblies (integrate 5 Y_ld (growing (q 1 400) (RhoScalar 1)) []).2 = 3%nat.
Proof. reflexivity. Qed.

Example zero_step_size_never_leaves :
  (integrate 4 Y_h p_zero_dt []).1 = OutOfFuel
  ∧ assemblies (integrate 4 Y_h p_zero_dt []).2 = 4%nat.
Proof. split; reflexivity. Qed.

Example empty_state_index_error :
  (integrate 1 [] (call 0 (q 1 1000) (RhoScalar 1)) []).1 = Raise IndexError.
Proof. reflexivity. Qed.

Example function_without_num_pops_type_error :
  (integrate 1 Y_h p_no_num_pops []).1 = Raise TypeError.
Proof. reflexivity. Qed.

Example more_ld_vectors_than_rates_index_error :
  (integrate 5 Y_lds (call (q 1 400) (q 1 1000) (RhoList [0])) []).1
  = Raise IndexError.
Proof. reflexivity. Qed.

End Runs.
